(** * abi-guesser: a shallow embedding of [src/encode-guesser/guess.ts]

    The guesser infers a list of ABI type descriptors from a raw blob of
    ABI-encoded bytes.  JavaScript numbers that the program uses as indices
    and lengths are integers here ([Z]); a [Uint8Array] is a [list byte];
    a nullable result is an [option]; a call that may raise returns a
    [Completion].  The external collaborators of the program (the ABI codec
    of ethers, UTF-8 validation) are [Section] variables: the properties of
    the decoder, of the resolution of placeholders and of the entry points
    hold for any codec.  Only the round trip of the refined types needs to
    know what the codec accepts; it is settled against a reference decoder
    of the ABI layout, [ReferenceCodec]. *)

From Stdlib Require Import ZArith List String Ascii Lia Bool.
From Stdlib.Strings Require Import Byte.
From Stdlib Require Import DecimalString.
Import ListNotations.

Local Open Scope Z_scope.
Set Warnings "-register-all".

(** ** Byte buffers *)

Definition bytes := list byte.

Definition byteVal (b : byte) : Z := Z.of_N (Byte.to_N b).

(** [arr.length] *)
Definition blen (d : bytes) : Z := Z.of_nat (List.length d).

(** Index normalisation of [TypedArray.prototype.slice]: a negative index
    counts from the end, and everything is clamped to [0 .. length]. *)
Definition relIndex (n i : Z) : Z :=
  if i <? 0 then Z.max (n + i) 0 else Z.min i n.

(** [arr.slice(a, b)] *)
Definition slice (d : bytes) (a b : Z) : bytes :=
  let from := relIndex (blen d) a in
  let to := relIndex (blen d) b in
  firstn (Z.to_nat (to - from)) (skipn (Z.to_nat from) d).

(** [arr.slice(a)] *)
Definition sliceFrom (d : bytes) (a : Z) : bytes :=
  skipn (Z.to_nat (relIndex (blen d) a)) d.

(** [BigInt(hexlify(word))]: the big-endian value of the bytes. *)
Definition bigIntOfBytes (w : bytes) : Z :=
  fold_left (fun acc b => acc * 256 + byteVal b) w 0.

(** [Number.MAX_SAFE_INTEGER] *)
Definition MAX_SAFE_INTEGER : Z := 2 ^ 53 - 1.

(** ** Word utilities and candidate predicates *)

Definition isSafeNumber (val : Z) : bool := val <? MAX_SAFE_INTEGER.

Definition tryParseOffset (data : bytes) (pos : Z) : option Z :=
  let word := slice data pos (pos + 32) in
  if blen word =? 0 then None
  else
    let bigOffset := bigIntOfBytes word in
    if negb (isSafeNumber bigOffset) then None
    else
      let offset := bigOffset in
      if (offset <=? pos) || (offset >=? blen data) then None
      else if negb (Z.rem offset 32 =? 0) then None
      else Some offset.

Definition tryParseLength (data : bytes) (offset : Z) : option Z :=
  let word := slice data offset (offset + 32) in
  if blen word =? 0 then None
  else
    let bigLength := bigIntOfBytes word in
    if negb (isSafeNumber bigLength) then None
    else
      let length := bigLength in
      if offset + 32 + length >? blen data then None
      else Some length.

Definition isZeroByte (b : byte) : bool := byteVal b =? 0.

Fixpoint countLeadingZeros (arr : bytes) : Z :=
  match arr with
  | [] => 0
  | b :: rest => if isZeroByte b then 1 + countLeadingZeros rest else 0
  end.

(** The loop of [countTrailingZeros] walks the array from its last index
    down; that is the leading count of the reversed array. *)
Definition countTrailingZeros (arr : bytes) : Z :=
  countLeadingZeros (rev arr).

Definition zeros (n : nat) : bytes := repeat x00 n.

(** The 32-byte big-endian word of a small number. *)
Definition word1 (b : byte) : bytes := zeros 31 ++ [b].

(** ** Type descriptors

    [ParamType] of ethers is external to the repository.  The guesser only
    builds descriptors by [ParamType.from] on a text that it has just
    produced with [format], and only reads [type], [baseType],
    [arrayChildren], [components] and [format()] back; the descriptor is
    therefore the tree itself, and [ParamType.from] of a formatted text is
    the corresponding constructor.  The one text with two readings is
    [()]: ethers parses it as a tuple with one component, of the empty
    type; the tree [TupleT []] stands for it, and [componentsOf] below
    gives the components as ethers has them, for arrays of tuples too. *)

Inductive ParamType : Type :=
| Elem (type : string)                  (* [baseType] is the type itself *)
| ArrayT (arrayChildren : ParamType)    (* [baseType = 'array'], text [T[]] *)
| TupleT (components : list ParamType). (* [baseType = 'tuple'], text [(T1,...,Tn)] *)

Fixpoint format (p : ParamType) : string :=
  match p with
  | Elem ty => ty
  | ArrayT c => (format c ++ "[]")%string
  | TupleT cs => ("(" ++ String.concat "," (map format cs) ++ ")")%string
  end.

Definition formatParams (params : list ParamType) : string :=
  String.concat ","%string (map format params).

(** [new Set(...).size === 1] over the formats of the parameters. *)
Definition areParamsConsistent (params : list ParamType) : bool :=
  Nat.eqb (List.length (nodup string_dec (map format params))) 1.

(** A placeholder for a potential dynamic variable. *)
Record DynamicPlaceholder : Type := {
  ph_offset : Z;          (* [offset]: always exists *)
  ph_length : option Z    (* [length]: [None] is [null] *)
}.

Inductive DecodedParam : Type :=
| Resolved (p : ParamType)
| Placeholder (d : DynamicPlaceholder).

Definition isParamType (p : DecodedParam) : bool :=
  match p with Resolved _ => true | Placeholder _ => false end.

(** Values handed back by the codec: hex data (for [bytes32] and [bytes]),
    sequences (for arrays and tuples), anything else. *)
Inductive Value : Type :=
| VHex (b : bytes)
| VSeq (vs : list Value)
| VOther.

(** [Array.prototype.sort] with a comparator [key a - key b] is a stable
    sort by [key]. *)
Section StableSort.
Context {A : Type} (key : A -> Z).

Fixpoint insertByKey (x : A) (l : list A) : list A :=
  match l with
  | [] => [x]
  | y :: rest => if key x <=? key y then x :: l else y :: insertByKey x rest
  end.

Definition sortByKey (l : list A) : list A :=
  fold_right insertByKey [] l.
End StableSort.

Definition formatLength (p : ParamType) : Z :=
  Z.of_nat (String.length (format p)).

(** [.filter(areParamsConsistent).map(v => v[0])]: the first elements of
    the consistent candidates, in order; a consistent candidate is never
    empty. *)
Definition survivors (results : list (list ParamType)) : list ParamType :=
  flat_map (fun v => match v with p :: _ => [p] | [] => [] end)
           (filter areParamsConsistent results).

(** All element types of a candidate format identically. *)
Definition Consistent (candidate : list ParamType) : Prop :=
  forall a b, In a candidate -> In b candidate -> format a = format b.

(** ** The backtracking decoder

    [abiDecode params data] stands for [defaultAbiCoder.decode(params, data)]
    followed by the forced reading of every decoded value: it is [Some] of
    the values exactly when neither step raises. *)

Section Decoder.
Variable abiDecode : list ParamType -> bytes -> option (list Value).

(** One frame of [decodeWellFormedTuple].  [rec d e x i] is the nested
    call [decodeWellFormedTuple(depth + 1, d, 0, [], e, x, i)] on a piece
    of dynamic data. *)
Section Frame.
Variable rec : bytes -> Z -> option Z -> option bool -> option (list ParamType).
Variable data : bytes.
Variable expectedLength : option Z.
Variable isDynamicArrayElement : option bool.

Definition testParams (params : option (list ParamType)) : bool :=
  match params with
  | None => false
  | Some ps => match abiDecode ps data with Some _ => true | None => false end
  end.

(** [if (testParams(fragment)) return fragment;] followed by [next]. *)
Definition returnIfValid (fragment next : option (list ParamType))
  : option (list ParamType) :=
  if testParams fragment then fragment else next.

(** [collectedParams.find((v, i) => i > idx && !isParamType(v))] *)
Definition nextDynamicParam (collectedParams : list DecodedParam) (idx : nat)
  : option DynamicPlaceholder :=
  match find (fun v => negb (isParamType v)) (skipn (S idx) collectedParams) with
  | Some (Placeholder d) => Some d
  | _ => None
  end.

(** The loop over [elemIdx] of the array-of-static interpretation,
    from [elemIdx] on, [count] elements to go. *)
Fixpoint staticParse (dynamicData : bytes) (wordsPerElement elemIdx : Z)
    (count : nat) : option (list ParamType) :=
  match count with
  | O => Some []
  | S count' =>
      match rec (slice dynamicData (elemIdx * wordsPerElement * 32)
                                   ((elemIdx + 1) * wordsPerElement * 32))
                (wordsPerElement * 32) None None with
      | None => None
      | Some [] => None
      | Some (p0 :: ps) =>
          let elem := match ps with
                      | [] => p0                 (* one type, all good *)
                      | _ => TupleT (p0 :: ps)   (* wrap it in a tuple *)
                      end in
          match staticParse dynamicData wordsPerElement (elemIdx + 1) count' with
          | None => None
          | Some rest => Some (elem :: rest)
          end
      end
  end.

(** The candidates pushed to [allResults], in order; [None] when the
    array-of-static interpretation returns [undefined] from the whole
    resolution. *)
Definition allResults (dynamicData : bytes) (len : Z) (isTrailing : bool)
  : option (list (list ParamType)) :=
  let decodedAssumingLength :=
    rec dynamicData (blen dynamicData) (Some len) (Some true) in
  let decodedAssumingNoLength :=
    rec dynamicData (blen dynamicData) (Some len) (Some false) in
  let pushed (r : option (list ParamType)) :=
    match r with Some l => [l] | None => [] end in
  (* numWords = dynamicData.length / 32 is a fraction in general:
     Math.floor(numWords / len) is the integer quotient by 32 * len, and
     numWords % len is zero exactly when 32 * len divides the length *)
  let wordsPerElement := blen dynamicData / (32 * len) in
  if negb (Z.rem (blen dynamicData) (32 * len) =? 0) && negb isTrailing
  then None
  else
    match staticParse dynamicData wordsPerElement 0 (Z.to_nat len) with
    | None => None
    | Some staticParseParams =>
        Some (pushed decodedAssumingLength ++ pushed decodedAssumingNoLength
                ++ [staticParseParams])
    end.

(** [.filter(...).map(v => v[0]).sort((a, b) => a.format().length -
    b.format().length)] *)
Definition validResults (results : list (list ParamType)) : list ParamType :=
  sortByKey formatLength (survivors results).

(** No later placeholder: the parameter is the trailing dynamic one. *)
Definition isTrailingAt (collectedParams : list DecodedParam) (idx : nat) : bool :=
  match nextDynamicParam collectedParams idx with
  | None => true
  | Some _ => false
  end.

(** The payload of the placeholder [param] found at index [idx]. *)
Definition dynamicDataOf (collectedParams : list DecodedParam) (idx : nat)
    (param : DynamicPlaceholder) : bytes :=
  let dynamicDataStart :=
    ph_offset param + (match ph_length param with Some _ => 32 | None => 0 end) in
  let dynamicDataEnd :=
    match nextDynamicParam collectedParams idx with
    | None => blen data
    | Some next => ph_offset next
    end in
  slice data dynamicDataStart dynamicDataEnd.

Definition resolvePlaceholder (collectedParams : list DecodedParam) (idx : nat)
    (param : DynamicPlaceholder) : option ParamType :=
  let isTrailingDynamicParam := isTrailingAt collectedParams idx in
  let maybeDynamicElementLen := ph_length param in
  let dynamicData := dynamicDataOf collectedParams idx param in
  match maybeDynamicElementLen with
  | None =>
      match rec dynamicData (blen dynamicData) None None with
      | None => None
      | Some params => Some (TupleT params)
      end
  | Some len =>
      if len =? 0 then Some (ArrayT (TupleT []))
      else if (len =? blen dynamicData)
              || ((Z.rem (blen dynamicData) 32 =? 0)
                  && (len =? blen dynamicData - countTrailingZeros dynamicData))
      then Some (Elem "bytes"%string)
      else
        match allResults dynamicData len isTrailingDynamicParam with
        | None => None
        | Some results =>
            match validResults results with
            | [] => None
            | best :: _ => Some (ArrayT best)
            end
        end
  end.

Definition maybeResolveDynamicParam (collectedParams : list DecodedParam)
    (idx : nat) : option ParamType :=
  match nth_error collectedParams idx with
  | None => None
  | Some (Resolved p) => Some p
  | Some (Placeholder param) => resolvePlaceholder collectedParams idx param
  end.

(** The loop that fills [finalParams], from index [i] on. *)
Fixpoint resolveFrom (collectedParams : list DecodedParam) (i : nat)
    (todo : nat) : option (list ParamType) :=
  match todo with
  | O => Some []
  | S todo' =>
      match maybeResolveDynamicParam collectedParams i with
      | None => None
      | Some decoded =>
          match resolveFrom collectedParams (S i) todo' with
          | None => None
          | Some rest => Some (decoded :: rest)
          end
      end
  end.

(** The part of the body after the static region. *)
Definition resolveFrame (collectedParams : list DecodedParam)
  : option (list ParamType) :=
  let wrongLength :=
    match expectedLength with
    | Some k => negb (Z.of_nat (List.length collectedParams) =? k)
    | None => false
    end in
  if wrongLength then None
  else
    let finalParams :=
      resolveFrom collectedParams 0 (List.length collectedParams) in
    returnIfValid finalParams None.

Definition mayBeDynamic (wanted : bool) : bool :=
  match isDynamicArrayElement with
  | None => true
  | Some b => Bool.eqb b wanted
  end.

(** The body of the static region at [paramOffset]: [recurse p e] is the
    call of [decodeWellFormedTuple] for the next parameter, with [p] added
    to the collected parameters and [e] as the end of the static region. *)
Definition staticRegion (paramOffset endOfStaticCalldata : Z)
    (recurse : DecodedParam -> Z -> option (list ParamType))
  : option (list ParamType) :=
  let asStatic :=
    match isDynamicArrayElement with
    | Some _ => None
    | None =>
        returnIfValid
          (recurse (Resolved (Elem "bytes32"%string)) endOfStaticCalldata) None
    end in
  match tryParseOffset data paramOffset with
  | None => asStatic
  | Some maybeOffset =>
      let withoutLength :=
        if mayBeDynamic false then
          returnIfValid
            (recurse (Placeholder {| ph_offset := maybeOffset; ph_length := None |})
                     (Z.min endOfStaticCalldata maybeOffset))
            asStatic
        else asStatic in
      match tryParseLength data maybeOffset with
      | Some maybeLength =>
          if mayBeDynamic true then
            returnIfValid
              (recurse (Placeholder {| ph_offset := maybeOffset;
                                       ph_length := Some maybeLength |})
                       (Z.min endOfStaticCalldata maybeOffset))
              withoutLength
          else withoutLength
      | None => withoutLength
      end
  end.

(** The walk over the static region; [steps] bounds the number of words
    still to be visited. *)
Fixpoint walk (steps : nat) (paramIdx : Z) (collectedParams : list DecodedParam)
    (endOfStaticCalldata : Z) : option (list ParamType) :=
  let paramOffset := paramIdx * 32 in
  if paramOffset <? endOfStaticCalldata then
    match steps with
    | O => None
    | S steps' =>
        staticRegion paramOffset endOfStaticCalldata
          (fun p endOfStatic =>
             walk steps' (paramIdx + 1) (collectedParams ++ [p]) endOfStatic)
    end
  else resolveFrame collectedParams.
End Frame.

(** Words still to be visited from [paramIdx] up to [endOfStaticCalldata]. *)
Definition staticSteps (paramIdx endOfStaticCalldata : Z) : nat :=
  Z.to_nat (endOfStaticCalldata - paramIdx * 32).

(** [decodeWellFormedTuple] with the nesting of dynamic data bounded by
    [fuel]. *)
Fixpoint decodeFuel (fuel : nat) (data : bytes) (paramIdx : Z)
    (collectedParams : list DecodedParam) (endOfStaticCalldata : Z)
    (expectedLength : option Z) (isDynamicArrayElement : option bool)
    : option (list ParamType) :=
  match fuel with
  | O => None
  | S fuel' =>
      walk (fun d e x i => decodeFuel fuel' d 0 [] e x i)
           data expectedLength isDynamicArrayElement
           (staticSteps paramIdx endOfStaticCalldata)
           paramIdx collectedParams endOfStaticCalldata
  end.

(** Nested dynamic data is strictly shorter than the data that holds it,
    so the length of the data is enough fuel. *)
Definition decodeWellFormedTuple (data : bytes) (paramIdx : Z)
    (collectedParams : list DecodedParam) (endOfStaticCalldata : Z)
    (expectedLength : option Z) (isDynamicArrayElement : option bool)
    : option (list ParamType) :=
  decodeFuel (S (List.length data)) data paramIdx collectedParams
             endOfStaticCalldata expectedLength isDynamicArrayElement.
End Decoder.

(** Frames that the decoder reaches from its entry: the parameter index is
    not negative and every collected placeholder points strictly inside the
    data, past its start (as [tryParseOffset] guarantees). *)
Definition placeholderInside (data : bytes) (p : DecodedParam) : Prop :=
  match p with
  | Resolved _ => True
  | Placeholder d => 0 < ph_offset d < blen data
  end.

Definition ReachableFrame (data : bytes) (paramIdx : Z)
    (collectedParams : list DecodedParam) : Prop :=
  0 <= paramIdx /\ Forall (placeholderInside data) collectedParams.

(** Two nested decoders that agree on every buffer of at most [n] bytes,
    or of fewer than [n] bytes. *)
Definition NestedDecoder : Type :=
  bytes -> Z -> option Z -> option bool -> option (list ParamType).

Definition agreeUpTo (n : nat) (rec1 rec2 : NestedDecoder) : Prop :=
  forall d e x i, (List.length d <= n)%nat -> rec1 d e x i = rec2 d e x i.

Definition agreeBelow (n : nat) (rec1 rec2 : NestedDecoder) : Prop :=
  forall d e x i, (List.length d < n)%nat -> rec1 d e x i = rec2 d e x i.

(** ** Hex text and [BytesLike] inputs *)

Definition hexDigit (n : Z) : ascii :=
  nth (Z.to_nat n)
      ["0"; "1"; "2"; "3"; "4"; "5"; "6"; "7"; "8"; "9";
       "a"; "b"; "c"; "d"; "e"; "f"]%char "0"%char.

(** The two lowercase hex digits of each byte, without the [0x] prefix. *)
Fixpoint hexOfBytes (d : bytes) : string :=
  match d with
  | [] => EmptyString
  | b :: rest =>
      String (hexDigit (byteVal b / 16))
        (String (hexDigit (Z.rem (byteVal b) 16)) (hexOfBytes rest))
  end.

Definition hexlify (d : bytes) : string := ("0x" ++ hexOfBytes d)%string.

(** [str.substring(n)] *)
Definition substringFrom (n : nat) (s : string) : string :=
  String.substring n (String.length s - n) s.

Definition nibble (c : ascii) : option Z :=
  let n := Z.of_nat (nat_of_ascii c) in
  if (48 <=? n) && (n <=? 57) then Some (n - 48)
  else if (97 <=? n) && (n <=? 102) then Some (n - 87)
  else if (65 <=? n) && (n <=? 70) then Some (n - 55)
  else None.

Definition byteOfZ (z : Z) : byte :=
  match Byte.of_N (Z.to_N z) with Some b => b | None => x00 end.

Fixpoint bytesOfHex (s : string) : option bytes :=
  match s with
  | EmptyString => Some []
  | String hi (String lo rest) =>
      match nibble hi, nibble lo, bytesOfHex rest with
      | Some h, Some l, Some d => Some (byteOfZ (h * 16 + l) :: d)
      | _, _, _ => None
      end
  | String _ EmptyString => None
  end.

(** A completed call either raises or returns. *)
Inductive Completion (A : Type) : Type :=
| Thrown
| Returned (v : A).
Arguments Thrown {A}.
Arguments Returned {A} v.

Definition bind {A B : Type} (c : Completion A) (k : A -> Completion B)
  : Completion B :=
  match c with
  | Thrown => Thrown
  | Returned v => k v
  end.

Notation "x <- c ;; k" := (bind c (fun x => k))
  (at level 61, c at next level, right associativity).

(** [list.map(f)] when [f] may raise; [mapiC] also passes the index. *)
Fixpoint mapiC {A B : Type} (f : nat -> A -> Completion B) (l : list A) (i : nat)
  : Completion (list B) :=
  match l with
  | [] => Returned []
  | a :: l' =>
      b <- f i a ;;
      bs <- mapiC f l' (S i) ;;
      Returned (b :: bs)
  end.

Definition mapC {A B : Type} (f : A -> Completion B) (l : list A)
  : Completion (list B) :=
  mapiC (fun _ a => f a) l O.

(** [BytesLike]: a hex text or an array of bytes. *)
Inductive BytesLike : Type :=
| HexString (s : string)
| ByteArray (a : bytes).

(** [arrayify]: a hex text must start with [0x] and hold whole bytes. *)
Definition arrayify (value : BytesLike) : Completion bytes :=
  match value with
  | ByteArray a => Returned a
  | HexString (String "0" (String "x" digits)) =>
      match bytesOfHex digits with
      | Some d => Returned d
      | None => Thrown
      end
  | HexString _ => Thrown
  end.

(** [value.length]: characters of a text, elements of an array. *)
Definition lengthOf (value : BytesLike) : Z :=
  match value with
  | HexString s => Z.of_nat (String.length s)
  | ByteArray a => blen a
  end.

(** ** Post-refinement *)

Definition isTuple (t : ParamType) : bool :=
  match t with TupleT _ => true | _ => false end.

Definition isArray (t : ParamType) : bool :=
  match t with ArrayT _ => true | _ => false end.

(** [types.find(v => v.baseType === kind) !== undefined]; reading
    [baseType] of an [undefined] entry raises.  [None] is [undefined] or
    [null]. *)
Fixpoint findBaseType (isKind : ParamType -> bool) (types : list (option ParamType))
  : Completion bool :=
  match types with
  | [] => Returned false
  | None :: _ => Thrown
  | Some t :: rest =>
      if isKind t then Returned true else findBaseType isKind rest
  end.

(** [v.components]: the components of a tuple, which an array of tuples of
    any depth keeps, and [null] for the other types.  The text [()] is
    parsed as a tuple with one component, of the empty type [Elem ""]: the
    type [TupleT []] stands for it. *)
Fixpoint componentsOf (t : ParamType) : option (list ParamType) :=
  match t with
  | Elem _ => None
  | ArrayT c => componentsOf c
  | TupleT [] => Some [Elem ""%string]
  | TupleT cs => Some cs
  end.

(** [types.map(v => v.components[i])]: reading [components] of an
    [undefined] or [null] entry raises, and so does the index into
    [components] when it is [null]; an index past the end gives
    [undefined]. *)
Fixpoint componentsAt (i : nat) (types : list (option ParamType))
  : Completion (list (option ParamType)) :=
  match types with
  | [] => Returned []
  | Some t :: rest =>
      match componentsOf t with
      | Some cs => r <- componentsAt i rest ;; Returned (nth_error cs i :: r)
      | None => Thrown
      end
  | None :: _ => Thrown
  end.

(** [types.map(v => v.arrayChildren)]; [arrayChildren] is [null] unless the
    type is an array. *)
Fixpoint arrayChildrenOf (types : list (option ParamType))
  : Completion (list (option ParamType)) :=
  match types with
  | [] => Returned []
  | Some (ArrayT c) :: rest => r <- arrayChildrenOf rest ;; Returned (Some c :: r)
  | Some _ :: rest => r <- arrayChildrenOf rest ;; Returned (None :: r)
  | None :: _ => Thrown
  end.

Fixpoint formatsOf (types : list (option ParamType)) : Completion (list string) :=
  match types with
  | [] => Returned []
  | Some t :: rest => r <- formatsOf rest ;; Returned (format t :: r)
  | None :: _ => Thrown
  end.

Definition hasFormat (s : string) (set : list string) : bool :=
  existsb (String.eqb s) set.

(** The last branch of [mergeTypes]: neither a tuple nor an array. *)
Definition mergeElementary (t0 : ParamType) (rest : list (option ParamType))
  : Completion ParamType :=
  formats <- formatsOf (Some t0 :: rest) ;;
  let set := nodup string_dec formats in
  if Nat.eqb (List.length set) 1 then Returned t0
  else if hasFormat "bytes" set then Returned (Elem "bytes"%string)
  else if hasFormat "uint256" set then Returned (Elem "uint256"%string)
  else Returned (Elem "bytes32"%string).

(** [mergeTypes] on a list whose first type [t0] is neither a tuple nor an
    array: [types[0].components] and [types[0].arrayChildren] are [null],
    so that the tuple branch raises at [components.length] and the array
    branch at the [find] of the nested call. *)
Definition mergeLeaf (t0 : ParamType) (rest : list (option ParamType))
  : Completion ParamType :=
  let types := Some t0 :: rest in
  hasTuple <- findBaseType isTuple types ;;
  if (hasTuple : bool) then Thrown
  else
    hasArray <- findBaseType isArray types ;;
    if (hasArray : bool) then Thrown else mergeElementary t0 rest.

(** [ParamType.from] of the text [(m)] for the one component merged from
    the components of [()]: the text is [()] again when [m] is the empty
    type. *)
Definition tupleOfUnit (m : ParamType) : ParamType :=
  match m with
  | Elem EmptyString => TupleT []
  | _ => TupleT [m]
  end.

(** [mergeTypes] on a non-empty list [t0 :: rest].  Every nested call of
    the source passes a list whose first entry is a component or the array
    child of [types[0]], which is what the recursion follows.  In the tuple
    branch the loop runs over [types[0].components], which are those of
    the tuple that [types[0]] is or is an array of. *)
Fixpoint mergeFrom (t0 : ParamType) (rest : list (option ParamType)) {struct t0}
  : Completion ParamType :=
  let types := Some t0 :: rest in
  hasTuple <- findBaseType isTuple types ;;
  if (hasTuple : bool) then
    (fix overComponents (t : ParamType) : Completion ParamType :=
       match t with
       | Elem _ => Thrown
       | ArrayT c => overComponents c
       | TupleT [] =>
           column <- componentsAt 0 rest ;;
           m <- mergeLeaf (Elem ""%string) column ;;
           Returned (tupleOfUnit m)
       | TupleT cs0 =>
           componentTypes <-
             mapiC (fun i c => column <- componentsAt i rest ;; mergeFrom c column)
                   cs0 O ;;
           Returned (TupleT componentTypes)
       end) t0
  else
    hasArray <- findBaseType isArray types ;;
    if (hasArray : bool) then
      match t0 with
      | ArrayT c0 =>
          children <- arrayChildrenOf rest ;;
          merged <- mergeFrom c0 children ;;
          Returned (ArrayT merged)
      | _ => Thrown
      end
    else mergeElementary t0 rest.

Definition mergeTypes (types : list ParamType) : Completion ParamType :=
  match types with
  | [] => Returned (TupleT [])
  | t0 :: rest => mergeFrom t0 (map Some rest)
  end.

(** The decimal text of a number, as in a template literal. *)
Definition decimal (z : Z) : string := NilZero.string_of_int (Z.to_int z).

(** The refinement of a [bytes32] slot from its word. *)
Definition prettyBytes32 (w : bytes) : ParamType :=
  let leadingZeros := countLeadingZeros w in
  let trailingZeros := countTrailingZeros w in
  if (leadingZeros >=? 12) && (leadingZeros <=? 17) then Elem "address"%string
  else if leadingZeros >? 16 then Elem "uint256"%string
  else if trailingZeros >? 0 then Elem ("bytes" ++ decimal (32 - trailingZeros))%string
  else Elem "bytes32"%string.

(** [FunctionFragment.from] of the text [name(inputs)]. *)
Record FunctionFragment : Type := {
  name : string;
  inputs : list ParamType
}.

Section Refinement.
(** [isUtf8 b]: [toUtf8String] accepts [b]. *)
Variable isUtf8 : bytes -> bool.

(** One step of the [map] of [prettyTypes]: the slot [param] with its
    value ([None] when [vals] has no such index).  A value that does not
    have the shape of its type makes [arrayify] or [val.map] raise. *)
Fixpoint prettyType (param : ParamType) (val : option Value) {struct param}
  : Completion ParamType :=
  match param with
  | Elem ty =>
      if String.eqb ty "bytes32" then
        match val with
        | Some (VHex w) => Returned (prettyBytes32 w)
        | _ => Thrown
        end
      else if String.eqb ty "bytes" then
        match val with
        | Some (VHex b) =>
            if isUtf8 b then Returned (Elem "string"%string)
            else Returned (Elem "bytes"%string)
        | _ => Returned (Elem "bytes"%string)
        end
      else Returned param
  | ArrayT child =>
      match val with
      | Some (VSeq vs) =>
          childrenTypes <- mapC (fun v => prettyType child (Some v)) vs ;;
          merged <- mergeTypes childrenTypes ;;
          Returned (ArrayT merged)
      | _ => Thrown
      end
  | TupleT comps =>
      match val with
      | Some (VSeq vs) =>
          refined <- mapiC (fun idx p => prettyType p (nth_error vs idx)) comps O ;;
          Returned (TupleT refined)
      | _ => Thrown
      end
  end.

Definition prettyTypesFrom (params : list ParamType) (vals : list Value) (idx : nat)
  : Completion (list ParamType) :=
  mapiC (fun i p => prettyType p (nth_error vals i)) params idx.

Definition prettyTypes (params : list ParamType) (vals : list Value)
  : Completion (list ParamType) :=
  prettyTypesFrom params vals 0.

(** ** Entry points *)

Variable abiDecode : list ParamType -> bytes -> option (list Value).

(** The end of the static region handed to the first frame. *)
Definition initialEndOfStatic (input : BytesLike) : Z := lengthOf input.

Definition guessAbiEncodedData (input : BytesLike)
  : Completion (option (list ParamType)) :=
  data <- arrayify input ;;
  match decodeWellFormedTuple abiDecode data 0 [] (initialEndOfStatic input)
                              None None with
  | None => Returned None
  | Some params =>
      match abiDecode params data with
      | None => Thrown
      | Some vals =>
          refined <- prettyTypes params vals ;;
          Returned (Some refined)
      end
  end.

Definition guessFragment (calldata : BytesLike)
  : Completion (option FunctionFragment) :=
  data <- arrayify calldata ;;
  if blen data =? 0 then Returned None
  else
    let tupleData := sliceFrom data 4 in
    guessed <- guessAbiEncodedData (ByteArray tupleData) ;;
    match guessed with
    | None => Returned None
    | Some params =>
        let selector := substringFrom 2 (hexlify (slice data 0 4)) in
        Returned (Some {| name := ("guessed_" ++ selector)%string;
                          inputs := params |})
    end.
End Refinement.

(** The fragment that [guessFragment] builds from the bytes of the calldata
    and the guessed parameters. *)
Definition guessedFragment (data : bytes) (params : list ParamType)
  : FunctionFragment :=
  {| name := ("guessed_" ++ hexOfBytes (firstn 4 data))%string;
     inputs := params |}.

(** ** Helpers of the debug output *)

(** The loop of [chunkString]: [size] chunks of [len] characters from
    [offset] on; [str.substring(offset, offset + len)] stops at the end of
    the text. *)
Fixpoint chunkLoop (str : string) (len offset size : nat) : list string :=
  match size with
  | O => []
  | S size' =>
      String.substring offset len str :: chunkLoop str len (offset + len) size'
  end.

(** [chunkString(str, len)] for an integer [len].  [size] is
    [Math.ceil(str.length / len)]: for [len = 0] it is [NaN] on the empty
    text (no iteration) and [Infinity] otherwise (the loop never ends:
    [None]); for a negative [len] it is not positive (no iteration). *)
Definition chunkString (str : string) (len : Z) : option (list string) :=
  let n := Z.of_nat (String.length str) in
  if len =? 0 then (if n =? 0 then Some [] else None)
  else if len <? 0 then Some []
  else Some (chunkLoop str (Z.to_nat len) 0 (Z.to_nat ((n + len - 1) / len))).

(** ** What the static walk collects *)

(** [collectedBy isDyn data paramOffset q]: the static region may add [q]
    to the collected parameters at [paramOffset]: a [bytes32] when the
    frame is not an array element, or a placeholder whose offset
    [tryParseOffset] read there, with the length that [tryParseLength] read
    at that offset or without a length, as the frame allows. *)
Definition collectedBy (isDyn : option bool) (data : bytes) (paramOffset : Z)
    (q : DecodedParam) : Prop :=
  match q with
  | Resolved t => t = Elem "bytes32"%string /\ isDyn = None
  | Placeholder d =>
      tryParseOffset data paramOffset = Some (ph_offset d)
      /\ match ph_length d with
         | Some len =>
             tryParseLength data (ph_offset d) = Some len /\ isDyn <> Some false
         | None => isDyn <> Some true
         end
  end.

(** The end of the static region after [q] is collected. *)
Definition endOfStaticAfter (endOfStatic : Z) (q : DecodedParam) : Z :=
  match q with
  | Resolved _ => endOfStatic
  | Placeholder d => Z.min endOfStatic (ph_offset d)
  end.

(** [Walked isDyn data paramIdx endOfStatic extra]: from [paramIdx], with
    [endOfStatic] as the end of the static region, the walk may collect the
    parameters [extra], one per word, and then be past the static region. *)
Inductive Walked (isDyn : option bool) (data : bytes)
  : Z -> Z -> list DecodedParam -> Prop :=
| Walked_base (paramIdx endOfStatic : Z) :
    endOfStatic <= paramIdx * 32 ->
    Walked isDyn data paramIdx endOfStatic []
| Walked_step (paramIdx endOfStatic : Z) (q : DecodedParam)
    (extra : list DecodedParam) :
    paramIdx * 32 < endOfStatic ->
    collectedBy isDyn data (paramIdx * 32) q ->
    Walked isDyn data (paramIdx + 1) (endOfStaticAfter endOfStatic q) extra ->
    Walked isDyn data paramIdx endOfStatic (q :: extra).

(** The types that the decoder builds: [bytes32], [bytes], arrays and
    tuples of such. *)
Fixpoint isEmitted (t : ParamType) : bool :=
  match t with
  | Elem s => String.eqb s "bytes32" || String.eqb s "bytes"
  | ArrayT c => isEmitted c
  | TupleT cs => forallb isEmitted cs
  end.

Definition emittedParam (p : DecodedParam) : bool :=
  match p with
  | Resolved t => isEmitted t
  | Placeholder _ => true
  end.

(** [fragment] when [testParams(fragment)] holds for the list [ts], and
    nothing otherwise. *)
Definition accepted (abiDecode : list ParamType -> bytes -> option (list Value))
    (data : bytes) (ts : list ParamType) : option (list ParamType) :=
  match abiDecode ts data with Some _ => Some ts | None => None end.

(** ** A reference codec

    The guesser is parametric in the codec, which is a library outside the
    repository.  To run the guesser on concrete buffers, and to state the
    round trip of the refined types, the codec is instantiated with a
    decoder of the head/tail layout of the ABI for the types that the
    guesser emits: one-word static types, [bytes], [string], dynamic arrays
    and tuples. *)

Module ReferenceCodec.

Fixpoint isDynamicType (t : ParamType) : bool :=
  match t with
  | Elem ty => String.eqb ty "bytes" || String.eqb ty "string"
  | ArrayT _ => true
  | TupleT cs => existsb isDynamicType cs
  end.

(** A reader is a buffer and a position in it, which is never negative. *)
Definition readWord (d : bytes) (off : Z) : option (Z * Z) :=
  if (off <? 0) || (off + 32 >? blen d) then None
  else Some (bigIntOfBytes (slice d off (off + 32)), off + 32).

(** Reads [n] bytes and skips the padding up to the next word. *)
Definition readBytes (d : bytes) (off n : Z) : option (bytes * Z) :=
  let aligned := (n + 31) / 32 * 32 in
  if (off <? 0) || (off + aligned >? blen d) then None
  else Some (slice d off (off + n), off + aligned).

(** Modelled from the spec: the UTF-8 validation of byte arrays (section 1,
    out of scope there), which is not among the sources: well-formed UTF-8
    by the table of the Unicode standard. *)
Fixpoint isUtf8Fuel (fuel : nat) (d : list Z) : bool :=
  let cont b := (128 <=? b) && (b <=? 191) in
  match fuel with
  | O => false
  | S fuel' =>
      match d with
      | [] => true
      | b0 :: r0 =>
          if b0 <? 128 then isUtf8Fuel fuel' r0
          else
            match r0 with
            | [] => false
            | b1 :: r1 =>
                if (194 <=? b0) && (b0 <=? 223) then cont b1 && isUtf8Fuel fuel' r1
                else
                  match r1 with
                  | [] => false
                  | b2 :: r2 =>
                      if (224 <=? b0) && (b0 <=? 239) then
                        (if b0 =? 224 then (160 <=? b1) && (b1 <=? 191)
                         else if b0 =? 237 then (128 <=? b1) && (b1 <=? 159)
                         else cont b1)
                        && cont b2 && isUtf8Fuel fuel' r2
                      else
                        match r2 with
                        | [] => false
                        | b3 :: r3 =>
                            (240 <=? b0) && (b0 <=? 244)
                            && (if b0 =? 240 then (144 <=? b1) && (b1 <=? 191)
                                else if b0 =? 244 then (128 <=? b1) && (b1 <=? 143)
                                else cont b1)
                            && cont b2 && cont b3 && isUtf8Fuel fuel' r3
                        end
                  end
            end
      end
  end.

Definition isUtf8 (d : bytes) : bool :=
  isUtf8Fuel (S (List.length d)) (map byteVal d).

(** The width [N] of a [bytesN] type name. *)
Definition fixedBytesWidth (ty : string) : option Z :=
  find (fun n => String.eqb ty ("bytes" ++ decimal n))
       (map Z.of_nat (seq 1 32)).

Definition decodeElem (ty : string) (d : bytes) (off : Z) : option (Value * Z) :=
  if String.eqb ty "bytes" || String.eqb ty "string" then
    match readWord d off with
    | None => None
    | Some (n, off1) =>
        match readBytes d off1 n with
        | None => None
        | Some (payload, off2) =>
            if String.eqb ty "string" && negb (isUtf8 payload) then None
            else Some (VHex payload, off2)
        end
    end
  else if String.eqb ty "uint256" then
    match readWord d off with
    | None => None
    | Some (_, off1) => Some (VOther, off1)
    end
  else if String.eqb ty "address" then
    match readWord d off with
    | None => None
    | Some (v, off1) => if v <? 2 ^ 160 then Some (VOther, off1) else None
    end
  else
    match fixedBytesWidth ty with
    | None => None
    | Some n =>
        match readBytes d off n with
        | None => None
        | Some (payload, off1) => Some (VHex payload, off1)
        end
    end.

(** One slot of a sequence laid out from [base]: a dynamic value is reached
    through the pointer in the slot, a static value is read in place. *)
Definition decodeSlot (dynamic : bool)
    (decodeChild : bytes -> Z -> option (Value * Z)) (base : bytes) (pos : Z)
  : option (Value * Z) :=
  if dynamic then
    match readWord base pos with
    | None => None
    | Some (o, pos') =>
        match decodeChild (sliceFrom base o) 0 with
        | None => None
        | Some (v, _) => Some (v, pos')
        end
    end
  else decodeChild base pos.

(** The slots of a sequence, one after the other from [pos]. *)
Fixpoint decodeSlots {A : Type} (slot : A -> Z -> option (Value * Z))
    (ts : list A) (pos : Z) : option (list Value * Z) :=
  match ts with
  | [] => Some ([], pos)
  | c :: ts' =>
      match slot c pos with
      | None => None
      | Some (v, pos') =>
          match decodeSlots slot ts' pos' with
          | None => None
          | Some (vs, pos'') => Some (v :: vs, pos'')
          end
      end
  end.

(** Decodes one value of type [t] with the reader at [off] in [d]; gives
    the value and the position after it. *)
Fixpoint decodeType (t : ParamType) (d : bytes) (off : Z) {struct t}
  : option (Value * Z) :=
  match t with
  | Elem ty => decodeElem ty d off
  | ArrayT c =>
      match readWord d off with
      | None => None
      | Some (count, off1) =>
          if count * 32 >? blen d then None
          else
            match decodeSlots
                    (fun (_ : unit) pos =>
                       decodeSlot (isDynamicType c) (decodeType c)
                                  (sliceFrom d off1) pos)
                    (repeat tt (Z.to_nat count)) 0
            with
            | None => None
            | Some (vs, pos) => Some (VSeq vs, off1 + pos)
            end
      end
  | TupleT cs =>
      match decodeSlots
              (fun c pos =>
                 decodeSlot (isDynamicType c) (decodeType c) (sliceFrom d off) pos)
              cs 0
      with
      | None => None
      | Some (vs, pos) => Some (VSeq vs, off + pos)
      end
  end.

(** Modelled from the spec: the ABI codec [defaultAbiCoder.decode] (the
    "canonical ABI codec" of section 1 and the oracle of the codec probe of
    section 4.3), which is not among the sources.  It decodes the data as
    one tuple of [types] in the layout of the glossary and of section 6:
    one 32-byte word per static parameter, a pointer for a dynamic one, the
    payload of a dynamic parameter behind its pointer, preceded by a length
    word for [bytes], [string] and arrays; an [address] must fit in 160
    bits and a [string] must be well-formed UTF-8. *)
Definition decode (types : list ParamType) (data : bytes) : option (list Value) :=
  match decodeType (TupleT types) data 0 with
  | Some (VSeq vs, _) => Some vs
  | _ => None
  end.

Definition guess : BytesLike -> Completion (option (list ParamType)) :=
  guessAbiEncodedData isUtf8 decode.

Definition fragment : BytesLike -> Completion (option FunctionFragment) :=
  guessFragment isUtf8 decode.
End ReferenceCodec.

(** ** Concrete buffers *)

Module Runs.
Import ReferenceCodec.

(** The nested calls of the decoder, as [maybeResolveDynamicParam] sees
    them. *)
Definition nested (d : bytes) (e : Z) (x : option Z) (i : option bool)
  : option (list ParamType) :=
  decodeWellFormedTuple decode d 0 [] e x i.

Definition hello : bytes := [x68; x65; x6c; x6c; x6f] ++ zeros 27.

(** [abi.encode("hello")] *)
Definition helloData : bytes := word1 x20 ++ word1 x05 ++ hello.

(** [abi.encode([1, 2, 3])] for a [uint256[]] *)
Definition uintsData : bytes :=
  word1 x20 ++ word1 x03 ++ word1 x01 ++ word1 x02 ++ word1 x03.

(** [abi.encode(["a", "bb"])] for a [string[]] *)
Definition stringsData : bytes :=
  word1 x20 ++ word1 x02 ++ word1 x40 ++ word1 x80
    ++ word1 x01 ++ ([x61] ++ zeros 31) ++ word1 x02 ++ ([x62; x62] ++ zeros 30).

Definition transferSelector : bytes := [xa9; x05; x9c; xbb].

Definition word2 (hi lo : byte) : bytes := zeros 30 ++ [hi; lo].

(** An array element with two readings.  Behind a length, the word [0x20]
    is the length of an array of 32 words; behind no length, it is the
    pointer of a tuple to its one component, a [bytes] of 992 bytes, the
    31 words after its length [0x3e0]. *)
Definition twoReadings : bytes :=
  word1 x20 ++ word2 x03 xe0 ++ List.concat (repeat (word1 x01) 31).

(** An array of two such elements: the pointer to the array, its length,
    the pointers [0x40] and [0x460] to the elements, and the elements. *)
Definition rankedData : bytes :=
  word1 x20 ++ word1 x02
    ++ word1 x40 ++ word2 x04 x60 ++ twoReadings ++ twoReadings.

(** Thirty-two bytes that are not UTF-8. *)
Definition ff : bytes := repeat xff 32.

(** A tuple [(v, [[(ff), (ff)]])] behind its pointer [0x20], in 16 words:
    the word [v = 0x3a0], the pointer [0x40] to the outer array, of length
    1, whose element is an array of length 2 of tuples of one [bytes] of 32
    bytes; two words of padding end it. *)
Definition denseTuple : bytes :=
  word1 x20 ++ word2 x03 xa0 ++ word1 x40
    ++ word1 x01 ++ word1 x20
    ++ word1 x02 ++ word1 x40 ++ word1 xa0
    ++ (word1 x20 ++ word1 x20 ++ ff)
    ++ (word1 x20 ++ word1 x20 ++ ff ++ zeros 32 ++ zeros 32).

(** The same tuple, whose last [bytes] has 96 bytes: the words [ff],
    [0x40] and [0].  Read as a tuple from its word [ff] on, these are a
    word and a pointer to an array of length 0. *)
Definition tupleWithin : bytes :=
  word1 x20 ++ word2 x03 xa0 ++ word1 x40
    ++ word1 x01 ++ word1 x20
    ++ word1 x02 ++ word1 x40 ++ word1 xa0
    ++ (word1 x20 ++ word1 x20 ++ ff)
    ++ (word1 x20 ++ word1 x60 ++ ff ++ word1 x40 ++ zeros 32).

(** An array of length 2 whose payload is the two tuples, each with its
    pointer.  Cut in two halves, it is two elements of 16 words; read with
    a table of pointers, its elements are at [0x20], the first tuple, and
    at [0x3a0], the word [ff] of the second. *)
Definition overlapData : bytes :=
  word1 x20 ++ word1 x02 ++ denseTuple ++ tupleWithin.

(** The word [0x2a] written as hex text. *)
Definition uintText : BytesLike :=
  HexString "0x000000000000000000000000000000000000000000000000000000000000002a".
End Runs.

(** * Properties *)

(** ** Byte buffers *)

Lemma blen_nonneg (d : bytes) : 0 <= blen d.
Proof. unfold blen. lia. Qed.

Lemma blen_zero_iff (d : bytes) : blen d = 0 <-> d = [].
Proof.
  unfold blen. destruct d; simpl; split; intros H; try reflexivity; try lia.
  discriminate.
Qed.

Lemma byteVal_nonneg (b : byte) : 0 <= byteVal b.
Proof. unfold byteVal. lia. Qed.

Lemma bigIntOfBytes_acc_nonneg (w : bytes) :
  forall acc, 0 <= acc ->
  0 <= fold_left (fun a b => a * 256 + byteVal b) w acc.
Proof.
  induction w as [|b w IH]; simpl; intros acc Hacc.
  - exact Hacc.
  - apply IH. pose proof (byteVal_nonneg b). lia.
Qed.

Lemma bigIntOfBytes_nonneg (w : bytes) : 0 <= bigIntOfBytes w.
Proof. apply bigIntOfBytes_acc_nonneg. lia. Qed.

Lemma relIndex_range (n i : Z) : 0 <= n -> 0 <= relIndex n i <= n.
Proof. unfold relIndex. intros Hn. destruct (i <? 0) eqn:E; lia. Qed.

Lemma slice_length_le (d : bytes) (a b : Z) :
  (List.length (slice d a b) <= List.length d)%nat.
Proof.
  unfold slice. rewrite length_firstn, length_skipn. lia.
Qed.

(** A slice that starts at a positive index is strictly shorter than a
    non-empty buffer. *)
Lemma slice_length_lt (d : bytes) (a b : Z) :
  0 < a -> d <> [] -> (List.length (slice d a b) < List.length d)%nat.
Proof.
  intros Ha Hd. unfold slice. rewrite length_firstn, length_skipn.
  assert (Hl : (0 < List.length d)%nat) by (destruct d; simpl; [congruence | lia]).
  assert (Hr : 0 < relIndex (blen d) a).
  { unfold relIndex. destruct (a <? 0) eqn:E; [lia|]. unfold blen. lia. }
  lia.
Qed.

(** ** The offset predicate *)

(** An offset that [tryParseOffset] returns lies after the position read
    and inside the data. *)
Lemma tryParseOffset_inside (data : bytes) (pos off : Z) :
  tryParseOffset data pos = Some off -> pos < off < blen data.
Proof.
  unfold tryParseOffset.
  destruct (blen (slice data pos (pos + 32)) =? 0); [discriminate|].
  destruct (negb (isSafeNumber (bigIntOfBytes (slice data pos (pos + 32)))));
    [discriminate|].
  destruct ((bigIntOfBytes (slice data pos (pos + 32)) <=? pos)
            || (bigIntOfBytes (slice data pos (pos + 32)) >=? blen data)) eqn:H;
    [discriminate|].
  destruct (negb (Z.rem (bigIntOfBytes (slice data pos (pos + 32))) 32 =? 0));
    [discriminate|].
  intros E. injection E as <-.
  apply orb_false_iff in H. destruct H as (H1 & H2).
  apply Z.leb_gt in H1. rewrite Z.geb_leb in H2. apply Z.leb_gt in H2. lia.
Qed.

(** C3. [tryParseOffset data pos] returns [off] exactly when the word read
    at [pos] is not empty, its big-endian value is [off], that value is a
    safe integer (strictly below 2^53 - 1), [pos < off < len(data)], and
    [off] is a multiple of 32. *)
Theorem tryParseOffset_iff (data : bytes) (pos off : Z) :
  tryParseOffset data pos = Some off <->
  (slice data pos (pos + 32) <> []
   /\ bigIntOfBytes (slice data pos (pos + 32)) = off
   /\ off < 2 ^ 53 - 1
   /\ pos < off < blen data
   /\ off mod 32 = 0).
Proof.
  unfold tryParseOffset, isSafeNumber, MAX_SAFE_INTEGER.
  set (word := slice data pos (pos + 32)).
  pose proof (bigIntOfBytes_nonneg word) as Hnn.
  rewrite <- (blen_zero_iff word).
  destruct (blen word =? 0) eqn:Hw.
  - apply Z.eqb_eq in Hw. split; [discriminate | intros (H & _); contradiction].
  - apply Z.eqb_neq in Hw.
    destruct (bigIntOfBytes word <? 2 ^ 53 - 1) eqn:Hs; simpl.
    + apply Z.ltb_lt in Hs.
      destruct (bigIntOfBytes word <=? pos) eqn:H1; simpl.
      * apply Z.leb_le in H1. split; [discriminate | intros (_ & E & _ & ? & _); lia].
      * apply Z.leb_gt in H1.
        destruct (bigIntOfBytes word >=? blen data) eqn:H2; simpl.
        -- apply Z.geb_le in H2.
           split; [discriminate | intros (_ & E & _ & ? & _); lia].
        -- rewrite Z.geb_leb in H2. apply Z.leb_gt in H2.
           rewrite Z.rem_mod_nonneg by lia.
           destruct (bigIntOfBytes word mod 32 =? 0) eqn:H3; simpl.
           ++ apply Z.eqb_eq in H3. split.
              ** intros E; inversion E; subst. repeat split; auto; lia.
              ** intros (_ & E & _); now rewrite E.
           ++ apply Z.eqb_neq in H3.
              split; [discriminate | intros (_ & E & _ & _ & M); congruence].
    + apply Z.ltb_ge in Hs.
      split; [discriminate | intros (_ & E & ? & _); lia].
Qed.

(** ** Value-driven refinement of a [bytes32] slot *)

Lemma prettyBytes32_cases (w : bytes) :
  let lz := countLeadingZeros w in
  let tz := countTrailingZeros w in
  (prettyBytes32 w = Elem "address"%string <-> 12 <= lz <= 17)
  /\ (~ 12 <= lz <= 17 -> 16 < lz -> prettyBytes32 w = Elem "uint256"%string)
  /\ (~ 12 <= lz <= 17 -> lz <= 16 -> 0 < tz ->
      prettyBytes32 w = Elem ("bytes" ++ decimal (32 - tz))%string)
  /\ (~ 12 <= lz <= 17 -> lz <= 16 -> tz <= 0 ->
      prettyBytes32 w = Elem "bytes32"%string).
Proof.
  intros lz tz. unfold prettyBytes32. fold lz tz.
  destruct (lz >=? 12) eqn:H12; destruct (lz <=? 17) eqn:H17; simpl;
    rewrite ?Z.geb_leb in H12;
    try apply Z.leb_le in H12; try apply Z.leb_gt in H12;
    try apply Z.leb_le in H17; try apply Z.leb_gt in H17.
  1: { repeat split; intros; try reflexivity; lia. }
  all: destruct (lz >? 16) eqn:H16; rewrite Z.gtb_ltb in H16;
    try apply Z.ltb_lt in H16; try apply Z.ltb_ge in H16.
  all: try (repeat split; intros; try reflexivity; try discriminate; lia).
  all: destruct (tz >? 0) eqn:Htz; rewrite Z.gtb_ltb in Htz;
    try apply Z.ltb_lt in Htz; try apply Z.ltb_ge in Htz.
  all: repeat split; intros; try reflexivity; try discriminate; try lia.
Qed.

Lemma prettyTypesFrom_nth (isUtf8 : bytes -> bool) (vals : list Value) :
  forall params i refined,
    prettyTypesFrom isUtf8 params vals i = Returned refined ->
    forall j p, nth_error params j = Some p ->
    exists t, nth_error refined j = Some t
              /\ prettyType isUtf8 p (nth_error vals (i + j)) = Returned t.
Proof.
  unfold prettyTypesFrom.
  induction params as [|q params IH]; intros i refined H j p Hj.
  - destruct j; discriminate.
  - simpl in H.
    destruct (prettyType isUtf8 q (nth_error vals i)) as [|t] eqn:Hq; [discriminate|].
    simpl in H.
    destruct (mapiC (fun i0 p0 => prettyType isUtf8 p0 (nth_error vals i0)) params (S i))
      as [|ts] eqn:Hr; [discriminate|].
    simpl in H. inversion H; subst refined.
    destruct j as [|j]; simpl in Hj.
    + inversion Hj; subst q. exists t. rewrite Nat.add_0_r. now split.
    + destruct (IH (S i) ts Hr j p Hj) as (t' & Ht' & Hp).
      exists t'. split; [exact Ht'|].
      now replace (i + S j)%nat with (S i + j)%nat by lia.
Qed.

(** C6. In [prettyTypes], a [bytes32] slot whose value is the word [w] is
    refined to [address] exactly when the number of leading zero bytes of
    [w] lies in [12, 17]; otherwise it becomes [uint256] when that number
    exceeds 16, else [bytes(32 - tz)] when the number [tz] of trailing zero
    bytes is positive, else it stays [bytes32]. *)
Theorem prettyTypes_bytes32_slot (isUtf8 : bytes -> bool)
    (params : list ParamType) (vals : list Value) (refined : list ParamType)
    (idx : nat) (w : bytes) :
  prettyTypes isUtf8 params vals = Returned refined ->
  nth_error params idx = Some (Elem "bytes32"%string) ->
  nth_error vals idx = Some (VHex w) ->
  let lz := countLeadingZeros w in
  let tz := countTrailingZeros w in
  exists t,
    nth_error refined idx = Some t
    /\ (t = Elem "address"%string <-> 12 <= lz <= 17)
    /\ (~ 12 <= lz <= 17 -> 16 < lz -> t = Elem "uint256"%string)
    /\ (~ 12 <= lz <= 17 -> lz <= 16 -> 0 < tz ->
        t = Elem ("bytes" ++ decimal (32 - tz))%string)
    /\ (~ 12 <= lz <= 17 -> lz <= 16 -> tz <= 0 -> t = Elem "bytes32"%string).
Proof.
  intros H Hp Hv lz tz.
  destruct (prettyTypesFrom_nth isUtf8 vals params 0 refined H idx _ Hp)
    as (t & Ht & Hpt).
  simpl in Hpt. rewrite Hv in Hpt. simpl in Hpt.
  inversion Hpt; subst t.
  exists (prettyBytes32 w). split; [exact Ht|].
  apply prettyBytes32_cases.
Qed.

Lemma prettyTypes_bytes32_slot_witness :
  exists t,
    nth_error [Elem "address"%string; Elem "bytes2"%string] 1 = Some t
    /\ (t = Elem "address"%string
        <-> 12 <= countLeadingZeros ([x01; x02] ++ zeros 30) <= 17).
Proof.
  destruct (prettyTypes_bytes32_slot (fun _ => true)
              [Elem "bytes32"%string; Elem "bytes32"%string]
              [VHex (zeros 12 ++ repeat xab 20); VHex ([x01; x02] ++ zeros 30)]
              [Elem "address"%string; Elem "bytes2"%string] 1
              ([x01; x02] ++ zeros 30) eq_refl eq_refl eq_refl)
    as (t & Ht & Ha & _).
  exists t. split; [exact Ht | exact Ha].
Defined.

(** ** Consistency and ranking of array candidates *)

Section SortHead.
Context {A : Type} (key : A -> Z).

Lemma insertByKey_head (x : A) (l : list A) :
  hd_error (insertByKey key x l)
  = match l with
    | [] => Some x
    | y :: _ => if key x <=? key y then Some x else Some y
    end.
Proof.
  destruct l as [|y l]; simpl; [reflexivity|].
  destruct (key x <=? key y); reflexivity.
Qed.

Lemma insertByKey_not_nil (x : A) (l : list A) : insertByKey key x l <> [].
Proof.
  destruct l as [|y l]; simpl; [discriminate|].
  destruct (key x <=? key y); discriminate.
Qed.

(** The first element of the sorted list is the first of the elements of
    least key in the original order. *)
Lemma sortByKey_head (l : list A) (best : A) :
  hd_error (sortByKey key l) = Some best ->
  exists before after,
    l = before ++ best :: after
    /\ (forall y, In y before -> key best < key y)
    /\ (forall y, In y after -> key best <= key y).
Proof.
  revert best. induction l as [|a l IH]; intros best H.
  - discriminate.
  - simpl in H. rewrite insertByKey_head in H.
    destruct (sortByKey key l) as [|h sorted] eqn:Hs.
    + inversion H; subst a.
      destruct l as [|b l].
      * exists [], []. repeat split; simpl; intros; contradiction.
      * simpl in Hs. exfalso. revert Hs. apply insertByKey_not_nil.
    + destruct (IH h eq_refl) as (before & after & Hl & Hb & Ha).
      destruct (key a <=? key h) eqn:Hle.
      * apply Z.leb_le in Hle. inversion H; subst a.
        exists [], l. split; [reflexivity|]. split; [intros y []|].
        intros y Hy. rewrite Hl in Hy. apply in_app_or in Hy.
        destruct Hy as [Hy | [Hy | Hy]].
        -- specialize (Hb y Hy). lia.
        -- subst y. lia.
        -- specialize (Ha y Hy). lia.
      * apply Z.leb_gt in Hle. inversion H; subst h.
        exists (a :: before), after. split; [simpl; now rewrite Hl|].
        split; [|exact Ha].
        intros y [Hy | Hy]; [subst y; lia | now apply Hb].
Qed.
End SortHead.

Lemma nodup_singleton_iff (l : list string) :
  List.length (nodup string_dec l) = 1%nat
  <-> l <> [] /\ (forall a b, In a l -> In b l -> a = b).
Proof.
  split.
  - intros H.
    destruct (nodup string_dec l) as [|x [|y t]] eqn:E; try discriminate.
    assert (Hall : forall a, In a l -> a = x).
    { intros a Ha. apply (nodup_In string_dec) in Ha. rewrite E in Ha.
      destruct Ha as [Ha | []]. now symmetry. }
    split.
    + intros ->. discriminate.
    + intros a b Ha Hb. rewrite (Hall a Ha), (Hall b Hb). reflexivity.
  - intros (Hne & Heq).
    pose proof (NoDup_nodup string_dec l) as Hnd.
    destruct (nodup string_dec l) as [|x [|y t]] eqn:E.
    + destruct l as [|a l]; [contradiction|].
      assert (Ha : In a (nodup string_dec (a :: l)))
        by (apply nodup_In; now left).
      rewrite E in Ha. contradiction.
    + reflexivity.
    + assert (Hx : In x l) by (apply (nodup_In string_dec); rewrite E; now left).
      assert (Hy : In y l)
        by (apply (nodup_In string_dec); rewrite E; right; now left).
      rewrite (Heq x y Hx Hy) in Hnd. inversion Hnd as [|? ? Hn _]; subst.
      exfalso. apply Hn. now left.
Qed.

Lemma areParamsConsistent_iff (candidate : list ParamType) :
  areParamsConsistent candidate = true
  <-> candidate <> [] /\ Consistent candidate.
Proof.
  unfold areParamsConsistent. rewrite Nat.eqb_eq, nodup_singleton_iff.
  split; intros (Hne & Heq); split.
  - intros ->. now apply Hne.
  - intros a b Ha Hb. apply Heq; now apply in_map.
  - intros E. apply map_eq_nil in E. contradiction.
  - intros s1 s2 H1 H2. apply in_map_iff in H1, H2.
    destruct H1 as (a & <- & Ha), H2 as (b & <- & Hb). now apply Heq.
Qed.

Lemma survivors_cons (c : list ParamType) (results : list (list ParamType)) :
  survivors (c :: results)
  = (if areParamsConsistent c
     then match c with p :: _ => [p] | [] => [] end
     else []) ++ survivors results.
Proof.
  unfold survivors. simpl. destruct (areParamsConsistent c); reflexivity.
Qed.

Lemma areParamsConsistent_nil : areParamsConsistent [] = false.
Proof. reflexivity. Qed.

Lemma survivors_split (results : list (list ParamType)) :
  forall pre best post,
    survivors results = pre ++ best :: post ->
    exists before chosen after,
      results = before ++ chosen :: after
      /\ areParamsConsistent chosen = true
      /\ hd_error chosen = Some best
      /\ survivors before = pre
      /\ survivors after = post.
Proof.
  induction results as [|c results IH]; intros pre best post H.
  - destruct pre; discriminate.
  - rewrite survivors_cons in H.
    destruct (areParamsConsistent c) eqn:Hc.
    + destruct c as [|p c']; [rewrite areParamsConsistent_nil in Hc; discriminate|].
      destruct pre as [|q pre]; simpl in H.
      * inversion H; subst. exists [], (best :: c'), results.
        repeat split; auto.
      * inversion H as [[Hq Hrest]]. subst q.
        destruct (IH pre best post Hrest)
          as (before & chosen & after & -> & Hch & Hhd & Hpre & Hpost).
        exists ((p :: c') :: before), chosen, after.
        repeat split; auto.
        rewrite survivors_cons, Hc, Hpre. reflexivity.
    + simpl in H.
      destruct (IH pre best post H)
        as (before & chosen & after & -> & Hch & Hhd & Hpre & Hpost).
      exists (c :: before), chosen, after. repeat split; auto.
      rewrite survivors_cons, Hc, Hpre. reflexivity.
Qed.

Lemma survivors_head_in (candidates : list (list ParamType))
    (c : list ParamType) (e : ParamType) :
  In c candidates -> Consistent c -> In e c ->
  exists h, In h (survivors candidates) /\ format h = format e.
Proof.
  intros Hin Hcons He.
  assert (Hc : areParamsConsistent c = true).
  { apply areParamsConsistent_iff. split; [|exact Hcons].
    intros ->. contradiction. }
  destruct c as [|h c']; [contradiction|].
  exists h. split.
  - unfold survivors. apply in_flat_map. exists (h :: c'). split.
    + apply filter_In. now split.
    + now left.
  - apply Hcons; [now left | exact He].
Qed.

(** ** Resolution of a dynamic placeholder *)

Section Resolution.
Variable rec : bytes -> Z -> option Z -> option bool -> option (list ParamType).
Variable data : bytes.

Lemma allResults_length (payload : bytes) (len : Z) (trailing : bool)
    (candidates : list (list ParamType)) :
  allResults rec payload len trailing = Some candidates ->
  (1 <= List.length candidates <= 3)%nat.
Proof.
  unfold allResults.
  destruct (negb (Z.rem (blen payload) (32 * len) =? 0) && negb trailing);
    [discriminate|].
  destruct (staticParse rec payload (blen payload / (32 * len)) 0 (Z.to_nat len));
    [|discriminate].
  intros H; inversion H; subst candidates.
  rewrite !length_app.
  destruct (rec payload (blen payload) (Some len) (Some true));
    destruct (rec payload (blen payload) (Some len) (Some false)); simpl; lia.
Qed.

(** C4. A placeholder with a non-zero declared length is classified as
    [bytes] exactly when the declared length equals the length of the
    payload slice, or the payload length is a multiple of 32 and the
    declared length is the payload length minus the number of trailing zero
    bytes of the payload. *)
Theorem maybeResolveDynamicParam_bytes_iff
    (collectedParams : list DecodedParam) (idx : nat) (off len : Z) :
  let param := {| ph_offset := off; ph_length := Some len |} in
  let payload := dynamicDataOf data collectedParams idx param in
  nth_error collectedParams idx = Some (Placeholder param) ->
  len <> 0 ->
  (maybeResolveDynamicParam rec data collectedParams idx = Some (Elem "bytes"%string)
   <-> (len = blen payload
        \/ (blen payload mod 32 = 0
            /\ len = blen payload - countTrailingZeros payload))).
Proof.
  intros param payload Hnth Hlen.
  unfold maybeResolveDynamicParam. rewrite Hnth.
  unfold resolvePlaceholder. change (ph_length param) with (Some len).
  cbv beta iota zeta. fold payload.
  apply Z.eqb_neq in Hlen. rewrite Hlen.
  pose proof (blen_nonneg payload) as Hnn.
  rewrite Z.rem_mod_nonneg by lia.
  destruct (len =? blen payload) eqn:H1; simpl.
  - apply Z.eqb_eq in H1. split; auto.
  - apply Z.eqb_neq in H1.
    destruct (blen payload mod 32 =? 0) eqn:H2; simpl.
    + apply Z.eqb_eq in H2.
      destruct (len =? blen payload - countTrailingZeros payload) eqn:H3.
      * apply Z.eqb_eq in H3. split; auto.
      * apply Z.eqb_neq in H3. split.
        -- destruct (allResults rec payload len _) as [results|]; [|discriminate].
           destruct (validResults results); discriminate.
        -- intros [E | (_ & E)]; contradiction.
    + apply Z.eqb_neq in H2. split.
      * destruct (allResults rec payload len _) as [results|]; [|discriminate].
        destruct (validResults results); discriminate.
      * intros [E | (E & _)]; contradiction.
Qed.

(** C5. When the resolution of a placeholder with a non-zero length returns
    an array type [T[]], there are at most three candidate interpretations;
    [T] is the first element type of a candidate [chosen] whose element
    types all format identically; every consistent candidate listed before
    [chosen] has a strictly longer format, and every consistent candidate
    listed after it has a format at least as long: inconsistent candidates
    play no part, and ties go to the earlier candidate. *)
Theorem maybeResolveDynamicParam_array_ranking
    (collectedParams : list DecodedParam) (idx : nat) (off len : Z)
    (T : ParamType) :
  let param := {| ph_offset := off; ph_length := Some len |} in
  let payload := dynamicDataOf data collectedParams idx param in
  nth_error collectedParams idx = Some (Placeholder param) ->
  len <> 0 ->
  maybeResolveDynamicParam rec data collectedParams idx = Some (ArrayT T) ->
  exists candidates before chosen after,
    allResults rec payload len (isTrailingAt collectedParams idx) = Some candidates
    /\ (List.length candidates <= 3)%nat
    /\ candidates = before ++ chosen :: after
    /\ Consistent chosen
    /\ hd_error chosen = Some T
    /\ (forall c e, In c before -> Consistent c -> In e c ->
          formatLength T < formatLength e)
    /\ (forall c e, In c after -> Consistent c -> In e c ->
          formatLength T <= formatLength e).
Proof.
  intros param payload Hnth Hlen.
  unfold maybeResolveDynamicParam. rewrite Hnth.
  unfold resolvePlaceholder. change (ph_length param) with (Some len).
  cbv beta iota zeta. fold payload.
  fold (isTrailingAt collectedParams idx).
  apply Z.eqb_neq in Hlen. rewrite Hlen.
  destruct ((len =? blen payload)
            || (Z.rem (blen payload) 32 =? 0)
               && (len =? blen payload - countTrailingZeros payload));
    [discriminate|].
  destruct (allResults rec payload len (isTrailingAt collectedParams idx))
    as [candidates|] eqn:Hall; [|discriminate].
  destruct (validResults candidates) as [|best rest] eqn:Hvalid; [discriminate|].
  intros H; inversion H; subst best.
  unfold validResults in Hvalid. fold (survivors candidates) in Hvalid.
  assert (Hhd : hd_error (sortByKey formatLength (survivors candidates)) = Some T)
    by now rewrite Hvalid.
  destruct (sortByKey_head formatLength _ _ Hhd) as (pre & post & Hsplit & Hpre & Hpost).
  destruct (survivors_split candidates pre T post Hsplit)
    as (before & chosen & after & Hcand & Hch & Hhead & Hb & Ha).
  exists candidates, before, chosen, after.
  split; [reflexivity|].
  split; [apply (allResults_length _ _ _ _ Hall)|].
  split; [exact Hcand|].
  split; [now apply areParamsConsistent_iff|].
  split; [exact Hhead|].
  split.
  - intros c e Hc Hcons He.
    destruct (survivors_head_in before c e Hc Hcons He) as (h & Hh & Hf).
    rewrite Hb in Hh. specialize (Hpre h Hh).
    unfold formatLength in *. now rewrite <- Hf.
  - intros c e Hc Hcons He.
    destruct (survivors_head_in after c e Hc Hcons He) as (h & Hh & Hf).
    rewrite Ha in Hh. specialize (Hpost h Hh).
    unfold formatLength in *. now rewrite <- Hf.
Qed.
End Resolution.

(** ** Length consistency of a frame *)

Section FrameFacts.
Variable abiDecode : list ParamType -> bytes -> option (list Value).
Variable rec : bytes -> Z -> option Z -> option bool -> option (list ParamType).
Variable data : bytes.
Variable expectedLength : option Z.
Variable isDynamicArrayElement : option bool.

Lemma returnIfValid_some (fragment next : option (list ParamType))
    (l : list ParamType) :
  returnIfValid abiDecode data fragment next = Some l ->
  fragment = Some l \/ next = Some l.
Proof.
  unfold returnIfValid. destruct (testParams abiDecode data fragment); auto.
Qed.

(** What a frame returns has passed the codec probe on the frame's data. *)
Lemma returnIfValid_none_probe (fragment : option (list ParamType))
    (l : list ParamType) :
  returnIfValid abiDecode data fragment None = Some l ->
  abiDecode l data <> None.
Proof.
  unfold returnIfValid.
  destruct (testParams abiDecode data fragment) eqn:Ht; [|discriminate].
  intros ->. simpl in Ht. destruct (abiDecode l data); [discriminate|discriminate].
Qed.

Lemma staticRegion_some (paramOffset endOfStatic : Z)
    (recurse : DecodedParam -> Z -> option (list ParamType)) (l : list ParamType) :
  staticRegion abiDecode data isDynamicArrayElement paramOffset endOfStatic recurse
  = Some l ->
  exists p e, recurse p e = Some l.
Proof.
  unfold staticRegion.
  set (asStatic := match isDynamicArrayElement with
                   | Some _ => None
                   | None => returnIfValid abiDecode data
                               (recurse (Resolved (Elem "bytes32"%string)) endOfStatic) None
                   end).
  assert (Hs : asStatic = Some l -> exists p e, recurse p e = Some l).
  { unfold asStatic. destruct isDynamicArrayElement; [discriminate|].
    intros H. apply returnIfValid_some in H. destruct H as [H | H]; [eauto | discriminate]. }
  destruct (tryParseOffset data paramOffset) as [maybeOffset|]; [|exact Hs].
  set (withoutLength := if mayBeDynamic isDynamicArrayElement false then _ else _).
  assert (Hw : withoutLength = Some l -> exists p e, recurse p e = Some l).
  { unfold withoutLength. destruct (mayBeDynamic isDynamicArrayElement false); [|exact Hs].
    intros H. apply returnIfValid_some in H. destruct H as [H | H]; eauto. }
  destruct (tryParseLength data maybeOffset) as [maybeLength|]; [|exact Hw].
  destruct (mayBeDynamic isDynamicArrayElement true); [|exact Hw].
  intros H. apply returnIfValid_some in H. destruct H as [H | H]; eauto.
Qed.

Lemma resolveFrom_length (collectedParams : list DecodedParam) :
  forall todo i l,
    resolveFrom rec data collectedParams i todo = Some l ->
    List.length l = todo.
Proof.
  induction todo as [|todo IH]; intros i l H; simpl in H.
  - inversion H. reflexivity.
  - destruct (maybeResolveDynamicParam rec data collectedParams i); [|discriminate].
    destruct (resolveFrom rec data collectedParams (S i) todo) as [rest|] eqn:Hr;
      [|discriminate].
    inversion H; subst l. simpl. f_equal. eapply IH; eauto.
Qed.

Lemma resolveFrame_some (collectedParams : list DecodedParam) (l : list ParamType) :
  resolveFrame abiDecode rec data expectedLength collectedParams = Some l ->
  List.length l = List.length collectedParams
  /\ (forall k, expectedLength = Some k -> Z.of_nat (List.length l) = k)
  /\ abiDecode l data <> None.
Proof.
  unfold resolveFrame.
  destruct (match expectedLength with
            | Some k => negb (Z.of_nat (List.length collectedParams) =? k)
            | None => false
            end) eqn:Hw; [discriminate|].
  intros H. pose proof (returnIfValid_none_probe _ _ H) as Hp.
  apply returnIfValid_some in H. destruct H as [H | H]; [|discriminate].
  apply resolveFrom_length in H.
  split; [exact H|]. split; [|exact Hp].
  intros k Hk. rewrite Hk in Hw. apply negb_false_iff, Z.eqb_eq in Hw. lia.
Qed.

Lemma walk_some :
  forall steps paramIdx collectedParams endOfStatic l,
    walk abiDecode rec data expectedLength isDynamicArrayElement
         steps paramIdx collectedParams endOfStatic = Some l ->
    (forall k, expectedLength = Some k -> Z.of_nat (List.length l) = k)
    /\ abiDecode l data <> None.
Proof.
  induction steps as [|steps IH]; intros paramIdx collectedParams endOfStatic l H;
    simpl in H; destruct (paramIdx * 32 <? endOfStatic).
  - discriminate.
  - now apply resolveFrame_some in H.
  - apply staticRegion_some in H. destruct H as (p & e & H). eapply IH; eauto.
  - now apply resolveFrame_some in H.
Qed.
End FrameFacts.

Lemma decodeFuel_some (abiDecode : list ParamType -> bytes -> option (list Value)) :
  forall fuel data paramIdx collectedParams endOfStatic expectedLength isDyn l,
    decodeFuel abiDecode fuel data paramIdx collectedParams endOfStatic
               expectedLength isDyn = Some l ->
    (forall k, expectedLength = Some k -> Z.of_nat (List.length l) = k)
    /\ abiDecode l data <> None.
Proof.
  intros [|fuel] data paramIdx collectedParams endOfStatic expectedLength isDyn l H;
    simpl in H; [discriminate|].
  eapply walk_some; eauto.
Qed.

(** C7. A frame of the decoder on which [expectedLength = k] is imposed
    returns either nothing or a list of exactly [k] types.  This holds for
    [decodeWellFormedTuple] at any parameter index and any collected
    parameters, and for the nested frames at every nesting bound. *)
Theorem decodeWellFormedTuple_expected_length
    (abiDecode : list ParamType -> bytes -> option (list Value))
    (data : bytes) (paramIdx : Z) (collectedParams : list DecodedParam)
    (endOfStatic k : Z) (isDyn : option bool) :
  (decodeWellFormedTuple abiDecode data paramIdx collectedParams endOfStatic
                         (Some k) isDyn = None
   \/ exists l,
        decodeWellFormedTuple abiDecode data paramIdx collectedParams endOfStatic
                              (Some k) isDyn = Some l
        /\ Z.of_nat (List.length l) = k)
  /\ forall fuel,
       decodeFuel abiDecode fuel data paramIdx collectedParams endOfStatic
                  (Some k) isDyn = None
       \/ exists l,
            decodeFuel abiDecode fuel data paramIdx collectedParams endOfStatic
                       (Some k) isDyn = Some l
            /\ Z.of_nat (List.length l) = k.
Proof.
  assert (H : forall fuel,
             decodeFuel abiDecode fuel data paramIdx collectedParams endOfStatic
                        (Some k) isDyn = None
             \/ exists l,
                  decodeFuel abiDecode fuel data paramIdx collectedParams endOfStatic
                             (Some k) isDyn = Some l
                  /\ Z.of_nat (List.length l) = k).
  { intros fuel.
    destruct (decodeFuel abiDecode fuel data paramIdx collectedParams endOfStatic
                         (Some k) isDyn) as [l|] eqn:E; [right | now left].
    exists l. split; [reflexivity|].
    apply decodeFuel_some in E. destruct E as (E & _). now apply E. }
  split; [apply (H (S (List.length data))) | exact H].
Qed.

(** ** The nesting bound is enough

    The bounded decoder does not depend on its bounds once they cover the
    data, and [decodeWellFormedTuple] satisfies the recursive equation of
    the source on every reachable frame. *)

Section Adequacy.
Variable abiDecode : list ParamType -> bytes -> option (list Value).



Lemma staticParse_agree (rec1 rec2 : NestedDecoder) (dynamicData : bytes) (w : Z) :
  agreeUpTo (List.length dynamicData) rec1 rec2 ->
  forall count elemIdx,
    staticParse rec1 dynamicData w elemIdx count
    = staticParse rec2 dynamicData w elemIdx count.
Proof.
  intros Hagree. induction count as [|count IH]; intros elemIdx; simpl.
  - reflexivity.
  - rewrite (Hagree _ _ _ _ (slice_length_le dynamicData _ _)).
    rewrite IH. reflexivity.
Qed.

Lemma allResults_agree (rec1 rec2 : NestedDecoder) (dynamicData : bytes) (len : Z)
    (trailing : bool) :
  agreeUpTo (List.length dynamicData) rec1 rec2 ->
  allResults rec1 dynamicData len trailing = allResults rec2 dynamicData len trailing.
Proof.
  intros Hagree. unfold allResults.
  rewrite (staticParse_agree rec1 rec2 dynamicData _ Hagree).
  rewrite !(Hagree dynamicData _ _ _ (Nat.le_refl _)). reflexivity.
Qed.

Lemma dynamicDataOf_shorter (data : bytes) (collectedParams : list DecodedParam)
    (idx : nat) (param : DynamicPlaceholder) :
  0 < ph_offset param < blen data ->
  (List.length (dynamicDataOf data collectedParams idx param) < List.length data)%nat.
Proof.
  intros Hin. unfold dynamicDataOf. apply slice_length_lt.
  - destruct (ph_length param); lia.
  - intros ->. unfold blen in Hin. simpl in Hin. lia.
Qed.

Lemma resolvePlaceholder_agree (rec1 rec2 : NestedDecoder) (data : bytes)
    (collectedParams : list DecodedParam) (idx : nat) (param : DynamicPlaceholder) :
  0 < ph_offset param < blen data ->
  agreeBelow (List.length data) rec1 rec2 ->
  resolvePlaceholder rec1 data collectedParams idx param
  = resolvePlaceholder rec2 data collectedParams idx param.
Proof.
  intros Hin Hagree.
  pose proof (dynamicDataOf_shorter data collectedParams idx param Hin) as Hlt.
  unfold resolvePlaceholder.
  remember (dynamicDataOf data collectedParams idx param) as dynamicData.
  assert (Hsub : agreeUpTo (List.length dynamicData) rec1 rec2).
  { intros d e x i Hd. apply Hagree. lia. }
  destruct (ph_length param) as [len|].
  - rewrite (allResults_agree rec1 rec2 dynamicData _ _ Hsub). reflexivity.
  - rewrite (Hsub dynamicData _ None None (Nat.le_refl _)). reflexivity.
Qed.

Lemma maybeResolveDynamicParam_agree (rec1 rec2 : NestedDecoder) (data : bytes)
    (collectedParams : list DecodedParam) (idx : nat) :
  Forall (placeholderInside data) collectedParams ->
  agreeBelow (List.length data) rec1 rec2 ->
  maybeResolveDynamicParam rec1 data collectedParams idx
  = maybeResolveDynamicParam rec2 data collectedParams idx.
Proof.
  intros Hall Hagree. unfold maybeResolveDynamicParam.
  destruct (nth_error collectedParams idx) as [[p | param]|] eqn:Hn; try reflexivity.
  apply resolvePlaceholder_agree; [|exact Hagree].
  apply nth_error_In in Hn. rewrite Forall_forall in Hall.
  exact (Hall _ Hn).
Qed.

Lemma resolveFrame_agree (rec1 rec2 : NestedDecoder) (data : bytes)
    (expectedLength : option Z) (collectedParams : list DecodedParam) :
  Forall (placeholderInside data) collectedParams ->
  agreeBelow (List.length data) rec1 rec2 ->
  resolveFrame abiDecode rec1 data expectedLength collectedParams
  = resolveFrame abiDecode rec2 data expectedLength collectedParams.
Proof.
  intros Hall Hagree. unfold resolveFrame.
  assert (H : forall todo i,
             resolveFrom rec1 data collectedParams i todo
             = resolveFrom rec2 data collectedParams i todo).
  { induction todo as [|todo IH]; intros i; simpl; [reflexivity|].
    rewrite (maybeResolveDynamicParam_agree rec1 rec2 data collectedParams i Hall Hagree).
    rewrite IH. reflexivity. }
  rewrite H. reflexivity.
Qed.

(** The static region only recurses with parameters that keep the frame
    reachable, and never with a later end of the static region. *)
Lemma staticRegion_agree (data : bytes) (isDyn : option bool)
    (paramOffset endOfStatic : Z)
    (recurse1 recurse2 : DecodedParam -> Z -> option (list ParamType)) :
  0 <= paramOffset ->
  (forall p e, placeholderInside data p -> e <= endOfStatic ->
               recurse1 p e = recurse2 p e) ->
  staticRegion abiDecode data isDyn paramOffset endOfStatic recurse1
  = staticRegion abiDecode data isDyn paramOffset endOfStatic recurse2.
Proof.
  intros Hpos Hrec. unfold staticRegion.
  rewrite (Hrec (Resolved (Elem "bytes32"%string)) endOfStatic I (Z.le_refl _)).
  destruct (tryParseOffset data paramOffset) as [maybeOffset|] eqn:Hoff;
    [|reflexivity].
  apply tryParseOffset_inside in Hoff. rename Hoff into Hrange.
  assert (Hin : forall l, placeholderInside data
                  (Placeholder {| ph_offset := maybeOffset; ph_length := l |}))
    by (intros l; simpl; lia).
  rewrite (Hrec _ (Z.min endOfStatic maybeOffset) (Hin None) (Z.le_min_l _ _)).
  destruct (tryParseLength data maybeOffset) as [maybeLength|]; [|reflexivity].
  rewrite (Hrec _ (Z.min endOfStatic maybeOffset) (Hin (Some maybeLength))
             (Z.le_min_l _ _)).
  reflexivity.
Qed.

Lemma walk_eq (rec : NestedDecoder) (data : bytes) (expectedLength : option Z)
    (isDyn : option bool) (steps : nat) (paramIdx : Z)
    (collectedParams : list DecodedParam) (endOfStatic : Z) :
  walk abiDecode rec data expectedLength isDyn steps paramIdx collectedParams endOfStatic
  = if paramIdx * 32 <? endOfStatic then
      match steps with
      | O => None
      | S steps' =>
          staticRegion abiDecode data isDyn (paramIdx * 32) endOfStatic
            (fun p e =>
               walk abiDecode rec data expectedLength isDyn steps'
                    (paramIdx + 1) (collectedParams ++ [p]) e)
      end
    else resolveFrame abiDecode rec data expectedLength collectedParams.
Proof. destruct steps; reflexivity. Qed.

Lemma walk_agree (rec1 rec2 : NestedDecoder) (data : bytes) (expectedLength : option Z)
    (isDyn : option bool) :
  agreeBelow (List.length data) rec1 rec2 ->
  forall steps1 steps2 paramIdx collectedParams endOfStatic,
    ReachableFrame data paramIdx collectedParams ->
    (staticSteps paramIdx endOfStatic <= steps1)%nat ->
    (staticSteps paramIdx endOfStatic <= steps2)%nat ->
    walk abiDecode rec1 data expectedLength isDyn steps1 paramIdx collectedParams endOfStatic
    = walk abiDecode rec2 data expectedLength isDyn steps2 paramIdx collectedParams endOfStatic.
Proof.
  intros Hagree.
  induction steps1 as [|steps1 IH];
    intros steps2 paramIdx collectedParams endOfStatic (Hidx & Hall) H1 H2;
    unfold staticSteps in *; rewrite !walk_eq;
    destruct (paramIdx * 32 <? endOfStatic) eqn:Hlt;
    try (now apply resolveFrame_agree); apply Z.ltb_lt in Hlt.
  - lia.
  - destruct steps2 as [|steps2]; [lia|].
    apply staticRegion_agree; [lia|].
    intros p e Hp He. apply IH.
    + split; [lia|]. apply Forall_app. split; [exact Hall|]. now constructor.
    + unfold staticSteps. lia.
    + unfold staticSteps. lia.
Qed.

Lemma decodeFuel_agree :
  forall fuel1 fuel2 data paramIdx collectedParams endOfStatic expectedLength isDyn,
    ReachableFrame data paramIdx collectedParams ->
    (List.length data < fuel1)%nat ->
    (List.length data < fuel2)%nat ->
    decodeFuel abiDecode fuel1 data paramIdx collectedParams endOfStatic expectedLength isDyn
    = decodeFuel abiDecode fuel2 data paramIdx collectedParams endOfStatic expectedLength isDyn.
Proof.
  induction fuel1 as [|fuel1 IH];
    intros fuel2 data paramIdx collectedParams endOfStatic expectedLength isDyn
           Hframe H1 H2; [lia|].
  destruct fuel2 as [|fuel2]; [lia|]. simpl.
  apply walk_agree; auto.
  intros d e x i Hd. apply IH.
  - split; [lia | constructor].
  - lia.
  - lia.
Qed.

(** X6. [decodeWellFormedTuple] unfolds as the function of the source does:
    in the static region it tries the three readings of the next word, each
    by a call of itself on the next parameter; past it, it resolves the
    placeholders by calls of itself on their payloads. *)
Theorem decodeWellFormedTuple_unfold (data : bytes) (paramIdx : Z)
    (collectedParams : list DecodedParam) (endOfStatic : Z)
    (expectedLength : option Z) (isDyn : option bool) :
  ReachableFrame data paramIdx collectedParams ->
  decodeWellFormedTuple abiDecode data paramIdx collectedParams endOfStatic
                        expectedLength isDyn
  = if paramIdx * 32 <? endOfStatic then
      staticRegion abiDecode data isDyn (paramIdx * 32) endOfStatic
        (fun p e =>
           decodeWellFormedTuple abiDecode data (paramIdx + 1)
                                 (collectedParams ++ [p]) e expectedLength isDyn)
    else
      resolveFrame abiDecode
        (fun d e x i => decodeWellFormedTuple abiDecode d 0 [] e x i)
        data expectedLength collectedParams.
Proof.
  intros (Hidx & Hall). unfold decodeWellFormedTuple at 1. simpl decodeFuel.
  assert (Hnested : agreeBelow (List.length data)
            (fun d e x i => decodeFuel abiDecode (List.length data) d 0 [] e x i)
            (fun d e x i => decodeWellFormedTuple abiDecode d 0 [] e x i)).
  { intros d e x i Hd. unfold decodeWellFormedTuple.
    apply decodeFuel_agree; [split; [lia | constructor] | lia | lia]. }
  rewrite walk_eq.
  destruct (paramIdx * 32 <? endOfStatic) eqn:Hlt;
    [|now apply resolveFrame_agree].
  apply Z.ltb_lt in Hlt.
  destruct (staticSteps paramIdx endOfStatic) as [|steps] eqn:Hsteps;
    [unfold staticSteps in Hsteps; lia|].
  apply staticRegion_agree; [lia|].
  intros p e Hp He. unfold decodeWellFormedTuple. simpl decodeFuel.
  apply walk_agree.
  - intros d e' x i Hd. reflexivity.
  - split; [lia|]. apply Forall_app. split; [exact Hall|]. now constructor.
  - unfold staticSteps in *. lia.
  - lia.
Qed.
End Adequacy.

(** ** Entry points *)

Lemma substring_whole (s : string) : String.substring 0 (String.length s) s = s.
Proof. induction s as [|c s IH]; simpl; [reflexivity | now rewrite IH]. Qed.

Lemma substringFrom_hexlify (d : bytes) :
  substringFrom 2 (hexlify d) = hexOfBytes d.
Proof.
  unfold substringFrom, hexlify. simpl.
  rewrite Nat.sub_0_r. apply substring_whole.
Qed.

Lemma slice_prefix (d : bytes) (n : nat) : slice d 0 (Z.of_nat n) = firstn n d.
Proof.
  unfold slice, relIndex, blen. simpl.
  destruct (Z.of_nat n <? 0) eqn:E; [apply Z.ltb_lt in E; lia|].
  rewrite (Z.min_l 0) by lia. rewrite Z.sub_0_r. simpl skipn.
  destruct (Nat.le_gt_cases n (List.length d)) as [Hle | Hgt].
  - now rewrite Z.min_l, Nat2Z.id by lia.
  - rewrite Z.min_r, Nat2Z.id by lia.
    rewrite !firstn_all2; auto; lia.
Qed.

Lemma sliceFrom_suffix (d : bytes) (n : nat) : sliceFrom d (Z.of_nat n) = skipn n d.
Proof.
  unfold sliceFrom, relIndex, blen.
  destruct (Z.of_nat n <? 0) eqn:E; [apply Z.ltb_lt in E; lia|].
  destruct (Nat.le_gt_cases n (List.length d)) as [Hle | Hgt].
  - now rewrite Z.min_l, Nat2Z.id by lia.
  - rewrite Z.min_r, Nat2Z.id by lia.
    rewrite !skipn_all2; auto; lia.
Qed.

Section EntryPoints.
Variable isUtf8 : bytes -> bool.
Variable abiDecode : list ParamType -> bytes -> option (list Value).

Lemma decodeWellFormedTuple_empty :
  abiDecode [] [] <> None ->
  decodeWellFormedTuple abiDecode [] 0 [] 0 None None = Some [].
Proof.
  intros H. unfold decodeWellFormedTuple. simpl.
  unfold resolveFrame, returnIfValid. simpl.
  destruct (abiDecode [] []); [reflexivity | contradiction].
Qed.

Lemma guessAbiEncodedData_array (a : bytes) :
  guessAbiEncodedData isUtf8 abiDecode (ByteArray a)
  = match decodeWellFormedTuple abiDecode a 0 [] (blen a) None None with
    | None => Returned None
    | Some params =>
        match abiDecode params a with
        | None => Thrown
        | Some vals =>
            refined <- prettyTypes isUtf8 params vals ;; Returned (Some refined)
        end
    end.
Proof. reflexivity. Qed.

(** What [guessAbiEncodedData] returns is the refinement of a list that
    the decoder found and that the codec decoded. *)
Lemma guessAbiEncodedData_returned (input : BytesLike) (T : list ParamType) :
  guessAbiEncodedData isUtf8 abiDecode input = Returned (Some T) ->
  exists data params vals,
    arrayify input = Returned data
    /\ decodeWellFormedTuple abiDecode data 0 [] (initialEndOfStatic input) None None
       = Some params
    /\ abiDecode params data = Some vals
    /\ prettyTypes isUtf8 params vals = Returned T.
Proof.
  unfold guessAbiEncodedData. intros H.
  destruct (arrayify input) as [|data] eqn:Ha; [discriminate|].
  cbv beta iota delta [bind] in H.
  destruct (decodeWellFormedTuple abiDecode data 0 [] (initialEndOfStatic input)
                                  None None) as [params|] eqn:Hd; [|discriminate].
  destruct (abiDecode params data) as [vals|] eqn:Hv; [|discriminate].
  destruct (prettyTypes isUtf8 params vals) as [|refined] eqn:Hp; [discriminate|].
  injection H as <-.
  exists data, params, vals. auto.
Qed.

Lemma guessAbiEncodedData_nil :
  abiDecode [] [] <> None ->
  guessAbiEncodedData isUtf8 abiDecode (ByteArray []) = Returned (Some []).
Proof.
  intros H. rewrite guessAbiEncodedData_array.
  change (blen []) with 0.
  rewrite (decodeWellFormedTuple_empty H).
  destruct (abiDecode [] []) as [vals|]; [reflexivity | contradiction].
Qed.

(** C9. On the empty byte array, with a codec that decodes the empty type
    list from the empty buffer, [guessAbiEncodedData] returns the empty
    list of types, not [null]. *)
Theorem guessAbiEncodedData_empty_array :
  abiDecode [] [] <> None ->
  guessAbiEncodedData isUtf8 abiDecode (ByteArray []) = Returned (Some [])
  /\ guessAbiEncodedData isUtf8 abiDecode (ByteArray []) <> Returned None.
Proof.
  intros H. rewrite (guessAbiEncodedData_nil H). split; [reflexivity | discriminate].
Qed.

Lemma guessFragment_unfold (calldata : BytesLike) (data : bytes) :
  arrayify calldata = Returned data ->
  data <> [] ->
  guessFragment isUtf8 abiDecode calldata
  = match guessAbiEncodedData isUtf8 abiDecode (ByteArray (skipn 4 data)) with
    | Thrown => Thrown
    | Returned None => Returned None
    | Returned (Some params) => Returned (Some (guessedFragment data params))
    end.
Proof.
  intros Ha Hne. unfold guessFragment. rewrite Ha. simpl bind.
  destruct (blen data =? 0) eqn:E.
  - apply Z.eqb_eq, blen_zero_iff in E. contradiction.
  - pose proof (sliceFrom_suffix data 4) as Hs.
    pose proof (slice_prefix data 4) as Hp.
    change (Z.of_nat 4) with 4 in Hs, Hp. rewrite Hs.
    destruct (guessAbiEncodedData isUtf8 abiDecode (ByteArray (skipn 4 data)))
      as [|[params|]]; simpl; try reflexivity.
    rewrite substringFrom_hexlify, Hp. reflexivity.
Qed.

(** C8. For calldata with bytes [data]: when [data] is empty,
    [guessFragment] returns [null]; otherwise it returns [null] exactly
    when [guessAbiEncodedData] on the bytes after the fourth is [null], and
    it returns the fragment named [guessed_] followed by the lowercase hex
    of the first four bytes, with parameters [params], exactly when
    [guessAbiEncodedData] on the bytes after the fourth returns [params]. *)
Theorem guessFragment_selector (calldata : BytesLike) (data : bytes) :
  arrayify calldata = Returned data ->
  (data = [] -> guessFragment isUtf8 abiDecode calldata = Returned None)
  /\ (data <> [] ->
      (guessFragment isUtf8 abiDecode calldata = Returned None
       <-> guessAbiEncodedData isUtf8 abiDecode (ByteArray (skipn 4 data))
           = Returned None)
      /\ (forall params,
            guessFragment isUtf8 abiDecode calldata
            = Returned (Some {| name := ("guessed_" ++ hexOfBytes (firstn 4 data))%string;
                                inputs := params |})
            <-> guessAbiEncodedData isUtf8 abiDecode (ByteArray (skipn 4 data))
                = Returned (Some params))).
Proof.
  intros Ha. split.
  - intros ->. unfold guessFragment. rewrite Ha. reflexivity.
  - intros Hne. rewrite (guessFragment_unfold calldata data Ha Hne).
    destruct (guessAbiEncodedData isUtf8 abiDecode (ByteArray (skipn 4 data)))
      as [|[ps|]]; unfold guessedFragment.
    + split; [split; discriminate | intros params; split; discriminate].
    + split; [split; discriminate|].
      intros params; split; intros H; inversion H; reflexivity.
    + split; [split; reflexivity | intros params; split; discriminate].
Qed.

(** C10. For non-empty calldata of fewer than four bytes, with a codec that
    decodes the empty type list from the empty buffer, [guessFragment]
    returns the fragment named [guessed_] followed by the lowercase hex of
    all the bytes there are, with no parameters. *)
Theorem guessFragment_short_calldata (calldata : BytesLike) (data : bytes) :
  abiDecode [] [] <> None ->
  arrayify calldata = Returned data ->
  data <> [] ->
  (List.length data < 4)%nat ->
  guessFragment isUtf8 abiDecode calldata
  = Returned (Some {| name := ("guessed_" ++ hexOfBytes data)%string;
                      inputs := [] |}).
Proof.
  intros Hc Ha Hne Hlen.
  rewrite (guessFragment_unfold calldata data Ha Hne).
  rewrite skipn_all2 by lia.
  rewrite (guessAbiEncodedData_nil Hc).
  unfold guessedFragment. rewrite firstn_all2 by lia. reflexivity.
Qed.

(** For an array of bytes, the first frame gets the length of the data as
    the end of the static region. *)
Lemma initialEndOfStatic_array (a : bytes) :
  arrayify (ByteArray a) = Returned a
  /\ initialEndOfStatic (ByteArray a) = blen a.
Proof. split; reflexivity. Qed.
End EntryPoints.

(** ** Completions and type descriptors *)

(** Induction on type descriptors, with the hypothesis on every component
    of a tuple. *)
Lemma ParamType_induction (P : ParamType -> Prop) :
  (forall s, P (Elem s)) ->
  (forall c, P c -> P (ArrayT c)) ->
  (forall cs, Forall P cs -> P (TupleT cs)) ->
  forall t, P t.
Proof.
  intros HE HA HT.
  fix IH 1. intros [s | c | cs].
  - apply HE.
  - apply HA, IH.
  - apply HT. induction cs as [|c cs IHcs]; constructor; [apply IH | exact IHcs].
Qed.

Lemma bind_returned {A B : Type} (c : Completion A) (k : A -> Completion B) (b : B) :
  bind c k = Returned b -> exists a, c = Returned a /\ k a = Returned b.
Proof. destruct c as [|a]; simpl; [discriminate | eauto]. Qed.

Lemma mapiC_cons {A B : Type} (f : nat -> A -> Completion B) (a : A) (l : list A)
    (i : nat) (bs : list B) :
  mapiC f (a :: l) i = Returned bs ->
  exists b bs', f i a = Returned b /\ mapiC f l (S i) = Returned bs' /\ bs = b :: bs'.
Proof.
  simpl. intros H.
  apply bind_returned in H. destruct H as (b & Hb & H).
  apply bind_returned in H. destruct H as (bs' & Hbs & H).
  inversion H; subst. eauto.
Qed.

Lemma mapiC_nth {A B : Type} (f : nat -> A -> Completion B) :
  forall l i bs,
    mapiC f l i = Returned bs ->
    List.length bs = List.length l
    /\ forall k a, nth_error l k = Some a ->
       exists b, nth_error bs k = Some b /\ f (i + k)%nat a = Returned b.
Proof.
  induction l as [|a0 l IH]; intros i bs H.
  - simpl in H. inversion H; subst. split; [reflexivity|].
    intros k a Hk. destruct k; discriminate.
  - apply mapiC_cons in H. destruct H as (b & bs' & Hb & Hbs & ->).
    destruct (IH _ _ Hbs) as (Hlen & Hnth). split; [simpl; now rewrite Hlen|].
    intros [|k] a Hk; simpl in Hk.
    + inversion Hk; subst. exists b. rewrite Nat.add_0_r. now split.
    + destruct (Hnth k a Hk) as (b' & Hb' & Hf). exists b'. split; [exact Hb'|].
      now replace (i + S k)%nat with (S i + k)%nat by lia.
Qed.

(** ** Runs on concrete buffers, with the reference codec *)

Module RunFacts.
Import ReferenceCodec Runs.

Example tryParseOffset_hello : tryParseOffset helloData 0 = Some 32.
Proof. reflexivity. Qed.

Example tryParseOffset_past_end : tryParseOffset (word1 x20 ++ word1 x05) 32 = None.
Proof. reflexivity. Qed.

Example tryParseLength_hello : tryParseLength helloData 32 = Some 5.
Proof. reflexivity. Qed.

Example countTrailingZeros_run :
  countTrailingZeros [x01; x00; x02; x00; x00] = 2.
Proof. reflexivity. Qed.

Example hexlify_run : hexlify transferSelector = "0xa9059cbb"%string.
Proof. reflexivity. Qed.

Example arrayify_run :
  arrayify (HexString "0xA9059cbb") = Returned transferSelector.
Proof. reflexivity. Qed.

Example guess_single_uint :
  guess (ByteArray (word1 x2a)) = Returned (Some [Elem "uint256"%string]).
Proof. vm_compute. reflexivity. Qed.

Example guess_address_uint :
  guess (ByteArray (zeros 12 ++ repeat xab 20 ++ word1 x07))
  = Returned (Some [Elem "address"%string; Elem "uint256"%string]).
Proof. vm_compute. reflexivity. Qed.

Example guess_string :
  guess (ByteArray helloData) = Returned (Some [Elem "string"%string]).
Proof. vm_compute. reflexivity. Qed.

Example guess_bytes :
  guess (ByteArray (word1 x20 ++ word1 x05 ++ [xff; xfe; xfd; xfc; xfb] ++ zeros 27))
  = Returned (Some [Elem "bytes"%string]).
Proof. vm_compute. reflexivity. Qed.

Example guess_uint_array :
  guess (ByteArray uintsData) = Returned (Some [ArrayT (Elem "uint256"%string)]).
Proof. vm_compute. reflexivity. Qed.

Example guess_string_array :
  guess (ByteArray stringsData) = Returned (Some [ArrayT (Elem "string"%string)]).
Proof. vm_compute. reflexivity. Qed.

(** As hex text, the empty input is not guessed: the end of the static
    region is then 2, the length of the text. *)
Example guess_empty_hex_text : guess (HexString "0x") = Returned None.
Proof. vm_compute. reflexivity. Qed.

Example guess_empty_array : guess (ByteArray []) = Returned (Some []).
Proof. vm_compute. reflexivity. Qed.

Example fragment_single_uint :
  fragment (ByteArray (transferSelector ++ word1 x2a))
  = Returned (Some {| name := "guessed_a9059cbb";
                      inputs := [Elem "uint256"%string] |}).
Proof. vm_compute. reflexivity. Qed.
(** The candidates of the array of [rankedData]: the elements with a
    length, the elements without a length, and the two halves of the
    payload, which do not agree. *)
Example allResults_ranked :
  option_map (fun l => map formatParams (firstn 2 l))
             (allResults nested (skipn 64 rankedData) 2 true)
  = Some ["bytes32[],bytes32[]"; "(bytes),(bytes)"]%string
  /\ option_map (map areParamsConsistent)
                (allResults nested (skipn 64 rankedData) 2 true)
     = Some [true; true; false].
Proof. split; vm_compute; reflexivity. Qed.

(** Merging refined types: [()] has one component, of the empty type, and
    an array of tuples keeps the components of its element type. *)
Example mergeTypes_unit_and_tuple :
  mergeTypes [TupleT []; TupleT [Elem "bytes32"%string]]
  = Returned (TupleT [Elem "bytes32"%string]).
Proof. reflexivity. Qed.

Example mergeTypes_array_and_tuple :
  mergeTypes [ArrayT (TupleT [Elem "bytes32"%string]); TupleT [Elem "bytes32"%string]]
  = Returned (TupleT [Elem "bytes32"%string]).
Proof. reflexivity. Qed.

Example mergeTypes_tuple_and_unit :
  mergeTypes [TupleT [Elem "bytes32"; Elem "bytes32"]%string; TupleT []] = Thrown.
Proof. reflexivity. Qed.

(** An empty array beside an array of words: [()] is merged with
    [uint256], which has no components. *)
Example prettyTypes_empty_then_word :
  prettyTypes isUtf8 [ArrayT (ArrayT (Elem "bytes32"%string))]
              [VSeq [VSeq []; VSeq [VHex (word1 x2a)]]]
  = Thrown.
Proof. vm_compute. reflexivity. Qed.

Example prettyTypes_tuple_then_empty :
  prettyTypes isUtf8 [ArrayT (ArrayT (TupleT [Elem "bytes32"%string]))]
              [VSeq [VSeq [VSeq [VHex (word1 x2a)]]; VSeq []]]
  = Returned [ArrayT (ArrayT (TupleT [Elem "uint256"%string]))].
Proof. vm_compute. reflexivity. Qed.
End RunFacts.

Lemma maybeResolveDynamicParam_bytes_iff_witness :
  maybeResolveDynamicParam Runs.nested Runs.helloData
    [Placeholder {| ph_offset := 32; ph_length := Some 5 |}] 0
  = Some (Elem "bytes"%string).
Proof.
  apply (maybeResolveDynamicParam_bytes_iff Runs.nested Runs.helloData
           [Placeholder {| ph_offset := 32; ph_length := Some 5 |}] 0 32 5).
  - reflexivity.
  - lia.
  - right. split; vm_compute; reflexivity.
Defined.

Lemma maybeResolveDynamicParam_array_ranking_witness :
  let withLength := ArrayT (Elem "bytes32"%string) in
  let withoutLength := TupleT [Elem "bytes"%string] in
  exists before chosen after,
    allResults Runs.nested (skipn 64 Runs.rankedData) 2 true
    = Some (before ++ chosen :: after)
    /\ before = [[withLength; withLength]]
    /\ chosen = [withoutLength; withoutLength]
    /\ (exists c, after = [c] /\ areParamsConsistent c = false)
    /\ formatLength withoutLength < formatLength withLength.
Proof.
  intros withLength withoutLength.
  destruct (maybeResolveDynamicParam_array_ranking Runs.nested Runs.rankedData
              [Placeholder {| ph_offset := 32; ph_length := Some 2 |}] 0 32 2
              withoutLength)
    as (candidates & before & chosen & after & Hall & _ & Hsplit & _ & Hhd & _).
  - reflexivity.
  - lia.
  - vm_compute. reflexivity.
  - assert (Hthree : exists c,
              Some candidates
              = Some [[withLength; withLength]; [withoutLength; withoutLength]; c]
              /\ areParamsConsistent c = false
              /\ hd_error c <> Some withoutLength).
    { rewrite <- Hall. vm_compute. eexists.
      split; [reflexivity|]. split; [reflexivity | discriminate]. }
    destruct Hthree as (c & Heq & Hc & Hother). injection Heq as ->.
    assert (Hpayload :
              dynamicDataOf Runs.rankedData
                [Placeholder {| ph_offset := 32; ph_length := Some 2 |}] 0
                {| ph_offset := 32; ph_length := Some 2 |}
              = skipn 64 Runs.rankedData) by (vm_compute; reflexivity).
    assert (Htrailing :
              isTrailingAt [Placeholder {| ph_offset := 32; ph_length := Some 2 |}] 0
              = true) by reflexivity.
    rewrite Hpayload, Htrailing in Hall.
    exists before, chosen, after.
    destruct before as [|b0 [|b1 [|b2 before]]]; simpl in Hsplit.
    + injection Hsplit as <- _. discriminate Hhd.
    + injection Hsplit as <- <- <-. split.
      * exact Hall.
      * split; [reflexivity|]. split; [reflexivity|].
        split; [exists c; now split | vm_compute; reflexivity].
    + injection Hsplit as _ _ E _. subst chosen. contradiction.
    + injection Hsplit as _ _ _ Hnil. destruct before; discriminate Hnil.
Defined.

Lemma guessAbiEncodedData_empty_array_witness :
  ReferenceCodec.decode [] [] <> None
  /\ ReferenceCodec.guess (ByteArray []) = Returned (Some []).
Proof.
  assert (H : ReferenceCodec.decode [] [] <> None) by (vm_compute; discriminate).
  split; [exact H|].
  exact (proj1 (guessAbiEncodedData_empty_array ReferenceCodec.isUtf8
                  ReferenceCodec.decode H)).
Defined.

Lemma guessFragment_selector_witness :
  ReferenceCodec.fragment (ByteArray (Runs.transferSelector ++ word1 x2a))
  = Returned (Some {| name := "guessed_a9059cbb";
                      inputs := [Elem "uint256"%string] |}).
Proof.
  destruct (guessFragment_selector ReferenceCodec.isUtf8 ReferenceCodec.decode
              (ByteArray (Runs.transferSelector ++ word1 x2a))
              (Runs.transferSelector ++ word1 x2a) eq_refl) as (_ & H).
  assert (Hne : Runs.transferSelector ++ word1 x2a <> []) by discriminate.
  destruct (H Hne) as (_ & Hp).
  apply (Hp [Elem "uint256"%string]).
  vm_compute. reflexivity.
Defined.

Lemma guessFragment_short_calldata_witness :
  ReferenceCodec.fragment (ByteArray [xa9; x05])
  = Returned (Some {| name := "guessed_a905"; inputs := [] |}).
Proof.
  apply (guessFragment_short_calldata ReferenceCodec.isUtf8 ReferenceCodec.decode
           (ByteArray [xa9; x05]) [xa9; x05]).
  - vm_compute. discriminate.
  - reflexivity.
  - discriminate.
  - simpl. lia.
Defined.

(** C2, at a hex text.  For the 32-byte word [0x2a] given as hex text, the
    decoder works on the 32 bytes of the word, but the end of the static
    region handed to the first frame is 66, the number of characters of the
    text; the guess is then [null], where the same bytes given as an array
    are guessed as [uint256]. *)
Theorem guessAbiEncodedData_hex_text_end_of_static :
  arrayify Runs.uintText = Returned (word1 x2a)
  /\ blen (word1 x2a) = 32
  /\ initialEndOfStatic Runs.uintText = 66
  /\ ReferenceCodec.guess Runs.uintText = Returned None
  /\ ReferenceCodec.guess (ByteArray (word1 x2a))
     = Returned (Some [Elem "uint256"%string]).
Proof. repeat split; vm_compute; reflexivity. Qed.

(** C1, at a buffer of 34 words.  The decoder reads the array of
    [overlapData] in two halves and returns [(bytes32,(bytes)[][])[]],
    which the codec decodes: the first element at its pointer [0x20], with
    the array [[(ff), (ff)]], and the second at [0x3a0], with an empty
    array.  The refinement merges the types [(bytes)[]] and [()] of the
    children of these two arrays into [(bytes)], the array keeping the
    components of its tuple, and returns [(uint256,(bytes)[])[]], which
    the codec does not decode: the length 2 of the inner array is then the
    pointer of a tuple to its [bytes], of which 131072 are announced. *)
Theorem guessAbiEncodedData_refined_list_not_decoded :
  let found := ArrayT (TupleT [Elem "bytes32";
                               ArrayT (ArrayT (TupleT [Elem "bytes"]))])%string in
  let refined := ArrayT (TupleT [Elem "uint256";
                                 ArrayT (TupleT [Elem "bytes"])])%string in
  decodeWellFormedTuple ReferenceCodec.decode Runs.overlapData 0 []
                        (blen Runs.overlapData) None None = Some [found]
  /\ ReferenceCodec.decode [found] Runs.overlapData <> None
  /\ ReferenceCodec.guess (ByteArray Runs.overlapData) = Returned (Some [refined])
  /\ ReferenceCodec.decode [refined] Runs.overlapData = None.
Proof.
  cbv zeta. split; [vm_compute; reflexivity|].
  split; [vm_compute; discriminate|].
  split; vm_compute; reflexivity.
Qed.

(** * Further properties of the code *)

(** ** The length predicate *)

(** X1. [tryParseLength data offset] returns [len] exactly when the word read
    at [offset] is not empty, its big-endian value is [len], that value is
    strictly below 2^53 - 1, and the [len] bytes after the word lie within
    the data. *)
Theorem tryParseLength_iff (data : bytes) (offset len : Z) :
  tryParseLength data offset = Some len <->
  (slice data offset (offset + 32) <> []
   /\ bigIntOfBytes (slice data offset (offset + 32)) = len
   /\ len < 2 ^ 53 - 1
   /\ offset + 32 + len <= blen data).
Proof.
  unfold tryParseLength, isSafeNumber, MAX_SAFE_INTEGER.
  set (word := slice data offset (offset + 32)).
  rewrite <- (blen_zero_iff word).
  destruct (blen word =? 0) eqn:Hw.
  - apply Z.eqb_eq in Hw. split; [discriminate | intros (H & _); contradiction].
  - apply Z.eqb_neq in Hw.
    destruct (bigIntOfBytes word <? 2 ^ 53 - 1) eqn:Hs; simpl.
    + apply Z.ltb_lt in Hs.
      destruct (offset + 32 + bigIntOfBytes word >? blen data) eqn:H1;
        rewrite Z.gtb_ltb in H1.
      * apply Z.ltb_lt in H1. split; [discriminate | intros (_ & E & _ & ?); lia].
      * apply Z.ltb_ge in H1. split.
        -- intros E; injection E as <-. repeat split; auto.
        -- intros (_ & E & _). now rewrite E.
    + apply Z.ltb_ge in Hs. split; [discriminate | intros (_ & E & ? & _); lia].
Qed.

Lemma tryParseOffset_aligned (data : bytes) (pos off : Z) :
  tryParseOffset data pos = Some off -> pos < off < blen data /\ off mod 32 = 0.
Proof.
  intros H. split; [exact (tryParseOffset_inside data pos off H)|].
  pose proof (tryParseOffset_inside data pos off H) as Hin.
  unfold tryParseOffset in H.
  set (v := bigIntOfBytes (slice data pos (pos + 32))) in *.
  pose proof (bigIntOfBytes_nonneg (slice data pos (pos + 32))) as Hnn. fold v in Hnn.
  destruct (blen (slice data pos (pos + 32)) =? 0); [discriminate|].
  destruct (negb (isSafeNumber v)); [discriminate|].
  destruct ((v <=? pos) || (v >=? blen data)); [discriminate|].
  destruct (Z.rem v 32 =? 0) eqn:Hr; simpl in H; [|discriminate].
  injection H as <-. apply Z.eqb_eq in Hr.
  now rewrite <- Z.rem_mod_nonneg by lia.
Qed.

Lemma tryParseLength_inside (data : bytes) (offset len : Z) :
  tryParseLength data offset = Some len -> 0 <= len /\ offset + 32 + len <= blen data.
Proof.
  unfold tryParseLength.
  pose proof (bigIntOfBytes_nonneg (slice data offset (offset + 32))) as Hnn.
  destruct (blen (slice data offset (offset + 32)) =? 0); [discriminate|].
  destruct (negb (isSafeNumber (bigIntOfBytes (slice data offset (offset + 32)))));
    [discriminate|].
  destruct (offset + 32 + bigIntOfBytes (slice data offset (offset + 32)) >? blen data)
    eqn:H; [discriminate|].
  intros E. injection E as <-. rewrite Z.gtb_ltb in H. apply Z.ltb_ge in H. lia.
Qed.

Lemma slice_length_inside (d : bytes) (a b : Z) :
  0 <= a <= b -> b <= blen d -> blen (slice d a b) = b - a.
Proof.
  intros Ha Hb. unfold slice, relIndex, blen in *.
  destruct (a <? 0) eqn:E0; [apply Z.ltb_lt in E0; lia|].
  destruct (b <? 0) eqn:E1; [apply Z.ltb_lt in E1; lia|].
  rewrite length_firstn, length_skipn. lia.
Qed.

(** X2. A pointer read at a position of the static region, followed by the
    length read at the pointer, delimits a payload that starts at the
    second word at the earliest and lies wholly within the data. *)
Theorem offset_then_length_payload (data : bytes) (pos off len : Z) :
  0 <= pos ->
  tryParseOffset data pos = Some off ->
  tryParseLength data off = Some len ->
  32 <= off /\ 0 <= len /\ off + 32 + len <= blen data
  /\ blen (slice data (off + 32) (off + 32 + len)) = len.
Proof.
  intros Hpos Hoff Hlen.
  destruct (tryParseOffset_aligned data pos off Hoff) as (Hin & Hmod).
  destruct (tryParseLength_inside data off len Hlen) as (H0 & H1).
  assert (H32 : 32 <= off).
  { pose proof (Z.div_mod off 32 ltac:(lia)) as Hd. rewrite Hmod in Hd.
    assert (0 < off / 32) by lia. lia. }
  repeat split; try lia.
  rewrite slice_length_inside; lia.
Qed.

(** ** Counting zero bytes *)

Lemma isZeroByte_iff (b : byte) : isZeroByte b = true <-> b = x00.
Proof.
  unfold isZeroByte, byteVal. rewrite Z.eqb_eq. split.
  - intros H. assert (Hn : Byte.to_N b = 0%N) by lia.
    pose proof (Byte.of_to_N b) as Hb. rewrite Hn in Hb. simpl in Hb.
    now injection Hb as <-.
  - intros ->. reflexivity.
Qed.

Lemma leadingZeros_run (arr : bytes) (k : nat) :
  countLeadingZeros arr = Z.of_nat k <->
  exists rest, arr = repeat x00 k ++ rest /\ hd_error rest <> Some x00.
Proof.
  revert k. induction arr as [|b arr IH]; intros k; cbn [countLeadingZeros].
  - split.
    + intros H. assert (k = O) by lia. subst k. exists []. split; [reflexivity | discriminate].
    + intros (rest & H & _). destruct k; [reflexivity|]. discriminate.
  - destruct (isZeroByte b) eqn:Hz.
    + apply isZeroByte_iff in Hz. subst b. destruct k as [|k].
      * split.
        -- intros H. assert (Hnn : 0 <= countLeadingZeros arr).
           { clear. induction arr as [|c arr IHa]; cbn [countLeadingZeros]; [lia|].
             destruct (isZeroByte c); lia. }
           lia.
        -- intros (rest & H & Hhd). simpl in H. subst rest. now contradiction Hhd.
      * rewrite Nat2Z.inj_succ. specialize (IH k). split.
        -- intros H. assert (H' : countLeadingZeros arr = Z.of_nat k) by lia.
           apply IH in H'. destruct H' as (rest & -> & Hhd).
           exists rest. split; [reflexivity | exact Hhd].
        -- intros (rest & H & Hhd). simpl in H. injection H as H.
           assert (H' : countLeadingZeros arr = Z.of_nat k)
             by (apply IH; exists rest; now split).
           lia.
    + assert (Hb : b <> x00) by (intros E; apply isZeroByte_iff in E; congruence).
      split.
      * intros H. assert (k = O) by lia. subst k. exists (b :: arr).
        split; [reflexivity|]. simpl. congruence.
      * intros (rest & H & Hhd). destruct k; [reflexivity|].
        simpl in H. injection H as H _. contradiction.
Qed.

Lemma trailingZeros_run (arr : bytes) (k : nat) :
  countTrailingZeros arr = Z.of_nat k <->
  exists rest, arr = rest ++ repeat x00 k /\ hd_error (rev rest) <> Some x00.
Proof.
  unfold countTrailingZeros. rewrite leadingZeros_run. split.
  - intros (rest & H & Hhd). exists (rev rest). split.
    + rewrite <- (rev_involutive arr), H, rev_app_distr, rev_repeat. reflexivity.
    + now rewrite rev_involutive.
  - intros (rest & -> & Hhd). exists (rev rest). split; [|exact Hhd].
    now rewrite rev_app_distr, rev_repeat.
Qed.

(** X3. [countLeadingZeros arr] is [k] exactly when [arr] starts with [k] zero
    bytes followed by its end or by a byte that is not zero, and
    [countTrailingZeros arr] is [k] exactly when [arr] ends with [k] zero
    bytes preceded by its start or by a byte that is not zero. *)
Theorem zero_counts_iff (arr : bytes) (k : nat) :
  (countLeadingZeros arr = Z.of_nat k <->
   exists rest, arr = repeat x00 k ++ rest /\ hd_error rest <> Some x00)
  /\ (countTrailingZeros arr = Z.of_nat k <->
      exists rest, arr = rest ++ repeat x00 k /\ hd_error (rev rest) <> Some x00).
Proof. split; [apply leadingZeros_run | apply trailingZeros_run]. Qed.

Lemma countLeadingZeros_bounds (arr : bytes) : 0 <= countLeadingZeros arr <= blen arr.
Proof.
  unfold blen. induction arr as [|b arr IH]; cbn [countLeadingZeros List.length].
  - lia.
  - rewrite Nat2Z.inj_succ. destruct (isZeroByte b); lia.
Qed.

Lemma countLeadingZeros_full (arr : bytes) :
  countLeadingZeros arr = blen arr <-> arr = repeat x00 (List.length arr).
Proof.
  unfold blen. induction arr as [|b arr IH]; cbn [countLeadingZeros List.length repeat].
  - split; reflexivity.
  - pose proof (countLeadingZeros_bounds arr) as Hr. unfold blen in Hr.
    rewrite Nat2Z.inj_succ. destruct (isZeroByte b) eqn:Hz.
    + apply isZeroByte_iff in Hz. subst b. split.
      * intros H. f_equal. apply IH. lia.
      * intros H. injection H as H. apply IH in H. lia.
    + split; [lia|]. intros H. injection H as Hb _.
      apply isZeroByte_iff in Hb. congruence.
Qed.

(** X4. Both counts are between 0 and the length; either one reaches the
    length exactly when every byte is zero, and then so does the other;
    unless they do, the leading and the trailing zeros do not overlap. *)
Theorem zero_counts_bounds (arr : bytes) :
  0 <= countLeadingZeros arr <= blen arr
  /\ 0 <= countTrailingZeros arr <= blen arr
  /\ (countLeadingZeros arr = blen arr <-> arr = repeat x00 (List.length arr))
  /\ (countTrailingZeros arr = blen arr <-> arr = repeat x00 (List.length arr))
  /\ (countLeadingZeros arr = blen arr
      \/ countLeadingZeros arr + countTrailingZeros arr < blen arr).
Proof.
  assert (Hrev : blen (rev arr) = blen arr) by (unfold blen; now rewrite length_rev).
  assert (Htrail : countTrailingZeros arr = blen arr <-> arr = repeat x00 (List.length arr)).
  { unfold countTrailingZeros. rewrite <- Hrev, countLeadingZeros_full, length_rev.
    split; intros H.
    - apply (f_equal (@rev byte)) in H.
      now rewrite rev_involutive, rev_repeat in H.
    - apply (f_equal (@rev byte)) in H. now rewrite rev_repeat in H. }
  split; [apply countLeadingZeros_bounds|].
  split; [unfold countTrailingZeros; rewrite <- Hrev; apply countLeadingZeros_bounds|].
  split; [apply countLeadingZeros_full|].
  split; [exact Htrail|].
  destruct (Z.eq_dec (countLeadingZeros arr) (blen arr)) as [Hfull | Hnz0];
    [now left | right].
  assert (Hnz : arr <> repeat x00 (List.length arr))
    by (intros E; apply Hnz0; now apply countLeadingZeros_full).
  (* the first non-zero byte comes before the trailing zeros *)
  destruct (proj1 (leadingZeros_run arr (Z.to_nat (countLeadingZeros arr))))
    as (rest & Hrest & Hhd).
  { pose proof (countLeadingZeros_bounds arr). lia. }
  destruct (proj1 (trailingZeros_run arr (Z.to_nat (countTrailingZeros arr))))
    as (front & Hfront & Hlast).
  { unfold countTrailingZeros. pose proof (countLeadingZeros_bounds (rev arr)). lia. }
  set (lz := Z.to_nat (countLeadingZeros arr)) in *.
  set (tz := Z.to_nat (countTrailingZeros arr)) in *.
  assert (Hlz : countLeadingZeros arr = Z.of_nat lz)
    by (pose proof (countLeadingZeros_bounds arr); lia).
  assert (Htz : countTrailingZeros arr = Z.of_nat tz).
  { unfold tz, countTrailingZeros. pose proof (countLeadingZeros_bounds (rev arr)). lia. }
  destruct rest as [|b rest].
  { exfalso. apply Hnz. rewrite Hrest at 1. rewrite app_nil_r.
    rewrite Hrest at 1. now rewrite app_nil_r, repeat_length. }
  assert (Hb : b <> x00) by (simpl in Hhd; congruence).
  (* [b] is the byte of index [lz]; were it among the last [tz] bytes, it
     would be zero *)
  assert (Hlen : List.length arr = (List.length front + tz)%nat)
    by (rewrite Hfront at 1; now rewrite length_app, repeat_length).
  assert (Hlen' : List.length arr = (lz + S (List.length rest))%nat)
    by (rewrite Hrest at 1; now rewrite length_app, repeat_length).
  destruct (Nat.lt_ge_cases lz (List.length front)) as [Hlt | Hge].
  - unfold blen. lia.
  - exfalso. apply Hb.
    assert (Hn1 : nth_error arr lz = Some b).
    { rewrite Hrest. rewrite nth_error_app2 by (rewrite repeat_length; lia).
      rewrite repeat_length, Nat.sub_diag. reflexivity. }
    assert (Hn2 : nth_error arr lz = Some x00).
    { rewrite Hfront. rewrite nth_error_app2 by lia.
      apply nth_error_repeat. lia. }
    congruence.
Qed.

(** ** Chunks of a text *)

Lemma substring_nil (n m : nat) : String.substring n m EmptyString = EmptyString.
Proof. destruct n, m; reflexivity. Qed.

Lemma substring_zero (s : string) :
  forall n, String.substring n 0 s = EmptyString.
Proof.
  induction s as [|c s IH]; intros n; [apply substring_nil|].
  destruct n; simpl; [reflexivity | apply IH].
Qed.

Lemma substring_split (s : string) :
  forall n a b,
    String.substring n (a + b) s
    = (String.substring n a s ++ String.substring (n + a) b s)%string.
Proof.
  induction s as [|c s IH]; intros n a b.
  - now rewrite !substring_nil.
  - destruct n as [|n]; simpl.
    + destruct a as [|a]; simpl; [reflexivity|]. f_equal. apply (IH O a b).
    + apply IH.
Qed.

Lemma substring_all (s : string) :
  forall m, (String.length s <= m)%nat -> String.substring 0 m s = s.
Proof.
  induction s as [|c s IH]; intros m Hm.
  - apply substring_nil.
  - destruct m as [|m]; simpl in *; [lia|]. f_equal. apply IH. lia.
Qed.

Lemma substring_length (s : string) :
  forall n m,
    String.length (String.substring n m s) = Nat.min m (String.length s - n).
Proof.
  induction s as [|c s IH]; intros n m.
  - rewrite substring_nil. simpl. lia.
  - destruct n as [|n]; simpl.
    + destruct m as [|m]; simpl; [reflexivity|]. rewrite IH. simpl. lia.
    + apply IH.
Qed.

Lemma concat_empty_cons (x : string) (xs : list string) :
  String.concat "" (x :: xs) = (x ++ String.concat "" xs)%string.
Proof.
  destruct xs as [|y ys]; simpl; [|reflexivity].
  induction x as [|c x IH]; simpl; [reflexivity | now rewrite <- IH].
Qed.

Lemma chunkLoop_concat (str : string) (len : nat) :
  forall size offset,
    String.concat "" (chunkLoop str len offset size)
    = String.substring offset (size * len) str.
Proof.
  induction size as [|size IH]; intros offset.
  - simpl. now rewrite substring_zero.
  - cbn [chunkLoop]. rewrite concat_empty_cons, IH.
    replace (S size * len)%nat with (len + size * len)%nat by lia.
    now rewrite substring_split.
Qed.

Lemma chunkLoop_lengths (str : string) (len : nat) :
  (0 < len)%nat ->
  forall size offset,
    (offset + (size - 1) * len < String.length str)%nat ->
    Forall (fun c => (1 <= String.length c <= len)%nat) (chunkLoop str len offset size).
Proof.
  intros Hlen. induction size as [|size IH]; intros offset H; cbn [chunkLoop].
  - constructor.
  - constructor.
    + rewrite substring_length.
      assert (offset < String.length str)%nat by nia. lia.
    + destruct size as [|size]; [constructor|]. apply IH. simpl in *. nia.
Qed.

Lemma chunkLoop_size (str : string) (len : nat) :
  forall size offset, List.length (chunkLoop str len offset size) = size.
Proof. induction size as [|size IH]; intros offset; simpl; [reflexivity | now rewrite IH]. Qed.

(** X5. For a positive [len], [chunkString] cuts the text into
    [ceil(length / len)] chunks, none of them empty and none longer than
    [len], whose concatenation is the text. *)
Theorem chunkString_positive (str : string) (len : Z) :
  0 < len ->
  exists chunks,
    chunkString str len = Some chunks
    /\ String.concat "" chunks = str
    /\ Forall (fun c => 1 <= Z.of_nat (String.length c) <= len) chunks
    /\ Z.of_nat (List.length chunks) = (Z.of_nat (String.length str) + len - 1) / len.
Proof.
  intros Hlen. unfold chunkString.
  destruct (len =? 0) eqn:E0; [apply Z.eqb_eq in E0; lia|].
  destruct (len <? 0) eqn:E1; [apply Z.ltb_lt in E1; lia|].
  set (n := Z.of_nat (String.length str)).
  set (size := (n + len - 1) / len).
  assert (Hsize : (size - 1) * len < n <= size * len /\ 0 <= size).
  { unfold size.
    pose proof (Z.div_mod (n + len - 1) len ltac:(lia)) as Hd.
    pose proof (Z.mod_pos_bound (n + len - 1) len Hlen) as Hm.
    assert (0 <= (n + len - 1) / len) by (apply Z.div_pos; lia).
    nia. }
  destruct Hsize as (Hs & Hs0).
  eexists. split; [reflexivity|]. split; [|split].
  - rewrite chunkLoop_concat. apply substring_all.
    apply Nat2Z.inj_le. rewrite Nat2Z.inj_mul, !Z2Nat.id by lia. fold n. lia.
  - destruct (Z.eq_dec size 0) as [Hz | Hz].
    + rewrite Hz. constructor.
    + assert (Ha : Z.of_nat (Z.to_nat size) = size) by lia.
      assert (Hb : Z.of_nat (Z.to_nat len) = len) by lia.
      set (a := Z.to_nat size) in *. set (b := Z.to_nat len) in *.
      eapply Forall_impl; [|apply (chunkLoop_lengths str b ltac:(lia) a O)].
      * intros c Hc. simpl in Hc. lia.
      * assert (Hgoal : Z.of_nat (0 + (a - 1) * b) < Z.of_nat (String.length str)).
        { rewrite Nat.add_0_l, Nat2Z.inj_mul, Nat2Z.inj_sub, Ha, Hb by lia.
          fold n. simpl Z.of_nat. lia. }
        lia.
  - rewrite chunkLoop_size, Z2Nat.id by lia. reflexivity.
Qed.

(** Outside of that, [chunkString] gives no chunk for a negative [len] and
    for the empty text, and does not return for [len = 0] on a text that is
    not empty. *)
Lemma chunkString_degenerate (str : string) (len : Z) :
  len <= 0 ->
  chunkString str len
  = (if (len =? 0) && negb (String.length str =? 0)%nat then None else Some []).
Proof.
  intros Hlen. unfold chunkString.
  destruct (len =? 0) eqn:E0; simpl.
  - destruct str; reflexivity.
  - apply Z.eqb_neq in E0.
    destruct (len <? 0) eqn:E1; [reflexivity | apply Z.ltb_ge in E1; lia].
Qed.

(** ** What the static walk collects *)

Section WalkFacts.
Variable abiDecode : list ParamType -> bytes -> option (list Value).
Variable rec : NestedDecoder.
Variable data : bytes.
Variable expectedLength : option Z.
Variable isDyn : option bool.

Lemma mayBeDynamic_true (wanted : bool) :
  mayBeDynamic isDyn wanted = true -> isDyn <> Some (negb wanted).
Proof.
  unfold mayBeDynamic. destruct isDyn as [b|]; [|discriminate].
  destruct b, wanted; simpl; intros H; congruence.
Qed.

Lemma staticRegion_collects (paramOffset endOfStatic : Z)
    (recurse : DecodedParam -> Z -> option (list ParamType)) (l : list ParamType) :
  staticRegion abiDecode data isDyn paramOffset endOfStatic recurse = Some l ->
  exists q,
    collectedBy isDyn data paramOffset q
    /\ recurse q (endOfStaticAfter endOfStatic q) = Some l.
Proof.
  unfold staticRegion.
  set (asStatic := match isDyn with
                   | Some _ => None
                   | None => returnIfValid abiDecode data
                               (recurse (Resolved (Elem "bytes32"%string)) endOfStatic) None
                   end).
  assert (Hs : asStatic = Some l ->
               exists q, collectedBy isDyn data paramOffset q
                         /\ recurse q (endOfStaticAfter endOfStatic q) = Some l).
  { unfold asStatic. destruct isDyn eqn:Hd; [discriminate|].
    intros H. apply returnIfValid_some in H. destruct H as [H | H]; [|discriminate].
    exists (Resolved (Elem "bytes32"%string)). simpl. auto. }
  destruct (tryParseOffset data paramOffset) as [maybeOffset|] eqn:Hoff; [|exact Hs].
  set (withoutLength := if mayBeDynamic isDyn false then _ else _).
  assert (Hw : withoutLength = Some l ->
               exists q, collectedBy isDyn data paramOffset q
                         /\ recurse q (endOfStaticAfter endOfStatic q) = Some l).
  { unfold withoutLength. destruct (mayBeDynamic isDyn false) eqn:Hm; [|exact Hs].
    intros H. apply returnIfValid_some in H. destruct H as [H | H]; [|now apply Hs].
    exists (Placeholder {| ph_offset := maybeOffset; ph_length := None |}).
    simpl. split; [|exact H]. split; [exact Hoff|].
    exact (mayBeDynamic_true false Hm). }
  destruct (tryParseLength data maybeOffset) as [maybeLength|] eqn:Hlen; [|exact Hw].
  destruct (mayBeDynamic isDyn true) eqn:Hm; [|exact Hw].
  intros H. apply returnIfValid_some in H. destruct H as [H | H]; [|now apply Hw].
  exists (Placeholder {| ph_offset := maybeOffset; ph_length := Some maybeLength |}).
  simpl. split; [|exact H]. split; [exact Hoff|]. split; [exact Hlen|].
  exact (mayBeDynamic_true true Hm).
Qed.

(** A walk that returns has collected its parameters one word at a time
    and resolved the frame that they make. *)
Lemma walk_walked :
  forall steps paramIdx collectedParams endOfStatic l,
    walk abiDecode rec data expectedLength isDyn steps paramIdx collectedParams
         endOfStatic = Some l ->
    exists extra,
      Walked isDyn data paramIdx endOfStatic extra
      /\ resolveFrame abiDecode rec data expectedLength (collectedParams ++ extra)
         = Some l.
Proof.
  induction steps as [|steps IH]; intros paramIdx collectedParams endOfStatic l H;
    simpl in H; destruct (paramIdx * 32 <? endOfStatic) eqn:Hlt;
    try discriminate;
    try (apply Z.ltb_ge in Hlt; exists []; rewrite app_nil_r;
         split; [now constructor | exact H]).
  apply Z.ltb_lt in Hlt. apply staticRegion_collects in H.
  destruct H as (q & Hq & H). apply IH in H. destruct H as (extra & Hw & Hr).
  exists (q :: extra). split; [now constructor|].
  now rewrite <- app_assoc in Hr.
Qed.

Lemma resolveFrom_nth (collectedParams : list DecodedParam) :
  forall todo i l,
    resolveFrom rec data collectedParams i todo = Some l ->
    forall k, (k < todo)%nat ->
      nth_error l k = maybeResolveDynamicParam rec data collectedParams (i + k)
      /\ nth_error l k <> None.
Proof.
  induction todo as [|todo IH]; intros i l H k Hk; [lia|]. simpl in H.
  destruct (maybeResolveDynamicParam rec data collectedParams i) as [t|] eqn:Ht;
    [|discriminate].
  destruct (resolveFrom rec data collectedParams (S i) todo) as [rest|] eqn:Hr;
    [|discriminate].
  injection H as <-. destruct k as [|k]; simpl.
  - rewrite Nat.add_0_r, Ht. split; [reflexivity | discriminate].
  - replace (i + S k)%nat with (S i + k)%nat by lia. apply (IH _ _ Hr). lia.
Qed.

(** The list that a frame returns has one type per collected parameter:
    the type of index [k] resolves the parameter of index [k]. *)
Lemma resolveFrame_nth (collectedParams : list DecodedParam) (l : list ParamType) :
  resolveFrame abiDecode rec data expectedLength collectedParams = Some l ->
  List.length l = List.length collectedParams
  /\ forall k q, nth_error collectedParams k = Some q ->
       exists t, nth_error l k = Some t
                 /\ maybeResolveDynamicParam rec data collectedParams k = Some t.
Proof.
  intros H. pose proof (resolveFrame_some abiDecode rec data expectedLength _ _ H)
    as (Hlen & _).
  split; [exact Hlen|]. intros k q Hk.
  unfold resolveFrame in H.
  destruct (match expectedLength with
            | Some k0 => negb (Z.of_nat (List.length collectedParams) =? k0)
            | None => false
            end); [discriminate|].
  apply returnIfValid_some in H. destruct H as [H | H]; [|discriminate].
  assert (Hlt : (k < List.length collectedParams)%nat)
    by (apply nth_error_Some; congruence).
  destruct (resolveFrom_nth collectedParams _ _ _ H k Hlt) as (Hn & Hsome).
  simpl in Hn. destruct (nth_error l k) as [t|]; [|contradiction].
  exists t. now split.
Qed.
End WalkFacts.

Lemma Walked_length (isDyn : option bool) (data : bytes) :
  forall paramIdx endOfStatic extra,
    Walked isDyn data paramIdx endOfStatic extra ->
    extra = [] \/ (paramIdx + Z.of_nat (List.length extra) - 1) * 32 < endOfStatic.
Proof.
  induction 1 as [p e He | p e q extra Hlt Hq Hw IH]; [now left|]. right.
  assert (Hle : endOfStaticAfter e q <= e) by (destruct q; simpl; lia).
  destruct IH as [-> | IH]; cbn [List.length]; rewrite ?Nat2Z.inj_succ; lia.
Qed.

Lemma collectedBy_offset (isDyn : option bool) (data : bytes) (paramOffset : Z)
    (d : DynamicPlaceholder) :
  collectedBy isDyn data paramOffset (Placeholder d) ->
  paramOffset < ph_offset d < blen data /\ ph_offset d mod 32 = 0
  /\ bigIntOfBytes (slice data paramOffset (paramOffset + 32)) = ph_offset d.
Proof.
  intros (Hoff & _).
  destruct (tryParseOffset_aligned data paramOffset _ Hoff) as (Hin & Hmod).
  split; [exact Hin|]. split; [exact Hmod|].
  unfold tryParseOffset in Hoff.
  destruct (blen (slice data paramOffset (paramOffset + 32)) =? 0); [discriminate|].
  destruct (negb (isSafeNumber _)); [discriminate|].
  destruct (_ || _); [discriminate|].
  destruct (negb _); [discriminate|].
  now injection Hoff.
Qed.

(** The walk stops at or before any aligned bound that is not below the end
    of the static region. *)
Lemma Walked_stops_before (isDyn : option bool) (data : bytes) (bound : Z) :
  bound mod 32 = 0 ->
  forall paramIdx endOfStatic extra,
    Walked isDyn data paramIdx endOfStatic extra ->
    endOfStatic <= bound -> paramIdx * 32 <= bound ->
    (paramIdx + Z.of_nat (List.length extra)) * 32 <= bound.
Proof.
  intros Hb. induction 1 as [p e He | p e q extra Hlt Hq Hw IH]; intros He' Hp.
  - simpl. lia.
  - cbn [List.length]. rewrite Nat2Z.inj_succ.
    assert (Hle : endOfStaticAfter e q <= e) by (destruct q; simpl; lia).
    assert (Hnext : (p + 1) * 32 <= bound).
    { pose proof (Z.div_mod bound 32 ltac:(lia)) as Hd. rewrite Hb in Hd.
      assert (p < bound / 32) by lia. lia. }
    specialize (IH ltac:(lia) Hnext). lia.
Qed.

(** Every placeholder that the walk collects at index [k] was read from the
    word of index [paramIdx + k]; its offset is aligned, inside the data,
    and at or past the place where the walk stops. *)
Lemma Walked_placeholders (isDyn : option bool) (data : bytes) :
  forall paramIdx endOfStatic extra,
    Walked isDyn data paramIdx endOfStatic extra ->
    forall k d, nth_error extra k = Some (Placeholder d) ->
      bigIntOfBytes (slice data ((paramIdx + Z.of_nat k) * 32)
                                ((paramIdx + Z.of_nat k) * 32 + 32)) = ph_offset d
      /\ ph_offset d mod 32 = 0
      /\ (paramIdx + Z.of_nat (List.length extra)) * 32 <= ph_offset d < blen data.
Proof.
  induction 1 as [p e He | p e q extra Hlt Hq Hw IH]; intros k d Hk.
  - destruct k; discriminate.
  - destruct k as [|k]; simpl in Hk.
    + injection Hk as ->.
      destruct (collectedBy_offset _ _ _ _ Hq) as (Hin & Hmod & Hword).
      rewrite Z.add_0_r. split; [exact Hword|]. split; [exact Hmod|].
      split; [|lia].
      cbn [List.length]. rewrite Nat2Z.inj_succ.
      pose proof (Walked_stops_before isDyn data (ph_offset d) Hmod _ _ _ Hw) as Hs.
      simpl in Hs.
      assert (Hnext : (p + 1) * 32 <= ph_offset d).
      { pose proof (Z.div_mod (ph_offset d) 32 ltac:(lia)) as Hd. rewrite Hmod in Hd.
        assert (p < ph_offset d / 32) by lia. lia. }
      specialize (Hs ltac:(lia) Hnext). lia.
    + destruct (IH k d Hk) as (Hword & Hmod & Hrange).
      cbn [List.length]. rewrite !Nat2Z.inj_succ.
      replace (p + Z.succ (Z.of_nat k)) with (p + 1 + Z.of_nat k) by lia.
      split; [exact Hword|]. split; [exact Hmod|]. lia.
Qed.

Lemma Walked_each (isDyn : option bool) (data : bytes) :
  forall paramIdx endOfStatic extra,
    Walked isDyn data paramIdx endOfStatic extra ->
    forall k q, nth_error extra k = Some q ->
      collectedBy isDyn data ((paramIdx + Z.of_nat k) * 32) q.
Proof.
  induction 1 as [p e He | p e q0 extra Hlt Hq Hw IH]; intros k q Hk.
  - destruct k; discriminate.
  - destruct k as [|k]; simpl in Hk.
    + injection Hk as <-. now rewrite Z.add_0_r.
    + rewrite Nat2Z.inj_succ.
      replace (p + Z.succ (Z.of_nat k)) with (p + 1 + Z.of_nat k) by lia.
      now apply IH.
Qed.

Lemma decodeFuel_walked (abiDecode : list ParamType -> bytes -> option (list Value))
    (fuel : nat) (data : bytes) (paramIdx : Z) (collectedParams : list DecodedParam)
    (endOfStatic : Z) (expectedLength : option Z) (isDyn : option bool)
    (l : list ParamType) :
  decodeFuel abiDecode fuel data paramIdx collectedParams endOfStatic
             expectedLength isDyn = Some l ->
  exists rec extra,
    Walked isDyn data paramIdx endOfStatic extra
    /\ resolveFrame abiDecode rec data expectedLength (collectedParams ++ extra)
       = Some l
    /\ (forall d e x i r, rec d e x i = Some r ->
          exists fuel', decodeFuel abiDecode fuel' d 0 [] e x i = Some r).
Proof.
  destruct fuel as [|fuel]; simpl; [discriminate|]. intros H.
  apply walk_walked in H. destruct H as (extra & Hw & Hr).
  exists (fun d e x i => decodeFuel abiDecode fuel d 0 [] e x i), extra.
  split; [exact Hw|]. split; [exact Hr|]. intros d e x i r Hrec. eauto.
Qed.

Lemma maybeResolve_resolved (rec : NestedDecoder) (data : bytes)
    (collectedParams : list DecodedParam) (k : nat) (t : ParamType) :
  nth_error collectedParams k = Some (Resolved t) ->
  maybeResolveDynamicParam rec data collectedParams k = Some t.
Proof. intros H. unfold maybeResolveDynamicParam. now rewrite H. Qed.

(** What a placeholder resolves to: with a length, [bytes] or an array
    type; without a length, a tuple. *)
Lemma resolvePlaceholder_kind (rec : NestedDecoder) (data : bytes)
    (collectedParams : list DecodedParam) (k : nat) (d : DynamicPlaceholder)
    (t : ParamType) :
  resolvePlaceholder rec data collectedParams k d = Some t ->
  match ph_length d with
  | Some _ => t = Elem "bytes"%string \/ isArray t = true
  | None => isTuple t = true
  end.
Proof.
  unfold resolvePlaceholder. destruct (ph_length d) as [len|].
  - destruct (len =? 0); [intros H; injection H as <-; now right|].
    destruct (_ || _); [intros H; injection H as <-; now left|].
    destruct (allResults rec _ len _) as [results|]; [|discriminate].
    destruct (validResults results); [discriminate|].
    intros H; injection H as <-. now right.
  - destruct (rec _ _ None None); [|discriminate].
    intros H; injection H as <-. reflexivity.
Qed.

(** ** The frames of the decoder *)

(** X8. The parameters already collected as types keep their place and their
    type in the list that a frame returns, which is at least as long as the
    collected list. *)
Theorem decodeWellFormedTuple_keeps_collected
    (abiDecode : list ParamType -> bytes -> option (list Value))
    (data : bytes) (paramIdx : Z) (collectedParams : list DecodedParam)
    (endOfStatic : Z) (expectedLength : option Z) (isDyn : option bool)
    (l : list ParamType) :
  decodeWellFormedTuple abiDecode data paramIdx collectedParams endOfStatic
                        expectedLength isDyn = Some l ->
  (List.length collectedParams <= List.length l)%nat
  /\ forall k t, nth_error collectedParams k = Some (Resolved t) ->
                 nth_error l k = Some t.
Proof.
  intros H. apply decodeFuel_walked in H.
  destruct H as (rec & extra & _ & Hr & _).
  apply resolveFrame_nth in Hr. destruct Hr as (Hlen & Hnth).
  split; [rewrite Hlen, length_app; lia|].
  intros k t Hk.
  assert (Hk' : nth_error (collectedParams ++ extra) k = Some (Resolved t)).
  { rewrite nth_error_app1; [exact Hk|]. apply nth_error_Some. congruence. }
  destruct (Hnth k _ Hk') as (t' & Ht' & Hres).
  rewrite (maybeResolve_resolved rec data _ k t Hk') in Hres. congruence.
Qed.

(** X9. In the list that the decoder returns for a buffer, a type other than
    [bytes32] at index [k] stands for a pointer: the word of index [k] of
    the buffer is a multiple of 32 that lies inside the buffer, at or past
    the end of the words that the list takes. *)
Theorem decodeWellFormedTuple_dynamic_slots
    (abiDecode : list ParamType -> bytes -> option (list Value))
    (data : bytes) (endOfStatic : Z) (expectedLength : option Z)
    (isDyn : option bool) (l : list ParamType) (k : nat) (t : ParamType) :
  decodeWellFormedTuple abiDecode data 0 [] endOfStatic expectedLength isDyn
  = Some l ->
  nth_error l k = Some t ->
  t <> Elem "bytes32"%string ->
  let off := bigIntOfBytes (slice data (Z.of_nat k * 32) (Z.of_nat k * 32 + 32)) in
  off mod 32 = 0 /\ Z.of_nat (List.length l) * 32 <= off < blen data.
Proof.
  intros H Hk Ht off. apply decodeFuel_walked in H.
  destruct H as (rec & extra & Hw & Hr & _). simpl in Hr.
  apply resolveFrame_nth in Hr. destruct Hr as (Hlen & Hnth).
  assert (Hq : exists q, nth_error extra k = Some q).
  { destruct (nth_error extra k) as [q|] eqn:E; [eauto|].
    apply nth_error_None in E.
    assert (nth_error l k <> None) by congruence.
    apply nth_error_Some in H. lia. }
  destruct Hq as (q & Hq). destruct (Hnth k q Hq) as (t' & Ht' & Hres).
  assert (t' = t) by congruence. subst t'.
  destruct q as [t0 | d].
  - rewrite (maybeResolve_resolved rec data _ k t0 Hq) in Hres. injection Hres as ->.
    pose proof (Walked_each _ _ _ _ _ Hw k _ Hq) as (Hb & _). contradiction.
  - destruct (Walked_placeholders _ _ _ _ _ Hw k d Hq) as (Hword & Hmod & Hrange).
    simpl in Hword, Hrange. unfold off. rewrite Hword, Hlen. split; [exact Hmod | lia].
Qed.

(** X10. A frame that decodes the elements of an array of dynamic elements
    returns only [bytes] and array types when the elements carry a length,
    and only tuples when they do not. *)
Theorem decodeWellFormedTuple_uniform_elements
    (abiDecode : list ParamType -> bytes -> option (list Value))
    (data : bytes) (paramIdx endOfStatic : Z) (expectedLength : option Z)
    (withLength : bool) (l : list ParamType) :
  decodeWellFormedTuple abiDecode data paramIdx [] endOfStatic expectedLength
                        (Some withLength) = Some l ->
  Forall (fun t => if withLength
                   then t = Elem "bytes"%string \/ isArray t = true
                   else isTuple t = true) l.
Proof.
  intros H. apply decodeFuel_walked in H.
  destruct H as (rec & extra & Hw & Hr & _). simpl in Hr.
  apply resolveFrame_nth in Hr. destruct Hr as (Hlen & Hnth).
  apply Forall_forall. intros t Hin. apply In_nth_error in Hin.
  destruct Hin as (k & Hk).
  assert (Hq : exists q, nth_error extra k = Some q).
  { destruct (nth_error extra k) as [q|] eqn:E; [eauto|].
    apply nth_error_None in E.
    assert (nth_error l k <> None) by congruence.
    apply nth_error_Some in H. lia. }
  destruct Hq as (q & Hq). destruct (Hnth k q Hq) as (t' & Ht' & Hres).
  assert (t' = t) by congruence. subst t'.
  pose proof (Walked_each _ _ _ _ _ Hw k _ Hq) as Hc.
  destruct q as [t0 | d]; simpl in Hc.
  - destruct Hc as (_ & Hc). discriminate.
  - unfold maybeResolveDynamicParam in Hres. rewrite Hq in Hres.
    apply resolvePlaceholder_kind in Hres. destruct Hc as (_ & Hc).
    destruct (ph_length d) as [len|], withLength; try exact Hres.
    + destruct Hc as (_ & Hc). now contradiction Hc.
    + now contradiction Hc.
Qed.

(** ** The types that the decoder builds *)

Section Emitted.
Variable abiDecode : list ParamType -> bytes -> option (list Value).
Variable rec : NestedDecoder.
Variable data : bytes.
Hypothesis rec_emitted :
  forall d e x i r, rec d e x i = Some r -> Forall (fun t => isEmitted t = true) r.

Lemma isEmitted_tuple (l : list ParamType) :
  Forall (fun t => isEmitted t = true) l -> isEmitted (TupleT l) = true.
Proof. intros H. simpl. apply forallb_forall. now apply Forall_forall. Qed.

Lemma staticParse_emitted (dynamicData : bytes) (w : Z) :
  forall count elemIdx l,
    staticParse rec dynamicData w elemIdx count = Some l ->
    Forall (fun t => isEmitted t = true) l.
Proof.
  induction count as [|count IH]; intros elemIdx l H; simpl in H.
  - injection H as <-. constructor.
  - destruct (rec _ _ None None) as [[|p0 ps]|] eqn:Hr; try discriminate.
    destruct (staticParse rec dynamicData w (elemIdx + 1) count) as [rest|] eqn:Hs;
      [|discriminate].
    injection H as <-. apply rec_emitted in Hr. constructor; [|eauto].
    destruct ps; [now inversion Hr | now apply isEmitted_tuple].
Qed.

Lemma allResults_emitted (dynamicData : bytes) (len : Z) (isTrailing : bool)
    (results : list (list ParamType)) :
  allResults rec dynamicData len isTrailing = Some results ->
  forall c, In c results -> Forall (fun t => isEmitted t = true) c.
Proof.
  unfold allResults. destruct (_ && _); [discriminate|].
  destruct (staticParse _ _ _ _ _) as [sp|] eqn:Hs; [|discriminate].
  intros H. injection H as <-. intros c Hc.
  apply in_app_or in Hc. destruct Hc as [Hc | Hc].
  - destruct (rec dynamicData _ _ (Some true)) eqn:E; [|contradiction].
    destruct Hc as [<- | []]. eauto.
  - apply in_app_or in Hc. destruct Hc as [Hc | [<- | []]].
    + destruct (rec dynamicData _ _ (Some false)) eqn:E; [|contradiction].
      destruct Hc as [<- | []]. eauto.
    + eapply staticParse_emitted; eauto.
Qed.

Lemma validResults_head_in (results : list (list ParamType)) (best : ParamType)
    (others : list ParamType) :
  validResults results = best :: others ->
  exists c, In c results /\ In best c.
Proof.
  intros H. unfold validResults in H.
  assert (Hh : hd_error (sortByKey formatLength (survivors results)) = Some best)
    by now rewrite H.
  apply sortByKey_head in Hh. destruct Hh as (before & after & Hl & _).
  apply survivors_split in Hl.
  destruct Hl as (b & chosen & a & -> & _ & Hhd & _).
  exists chosen. split; [apply in_or_app; right; now left|].
  destruct chosen; [discriminate|]. injection Hhd as ->. now left.
Qed.

Lemma resolvePlaceholder_emitted (collectedParams : list DecodedParam) (k : nat)
    (d : DynamicPlaceholder) (t : ParamType) :
  resolvePlaceholder rec data collectedParams k d = Some t ->
  isEmitted t = true.
Proof.
  unfold resolvePlaceholder. destruct (ph_length d) as [len|].
  - destruct (len =? 0); [intros H; injection H as <-; reflexivity|].
    destruct (_ || _); [intros H; injection H as <-; reflexivity|].
    destruct (allResults rec _ len _) as [results|] eqn:Ha; [|discriminate].
    destruct (validResults results) as [|best others] eqn:Hv; [discriminate|].
    intros H; injection H as <-. simpl.
    apply validResults_head_in in Hv. destruct Hv as (c & Hc & Hb).
    pose proof (allResults_emitted _ _ _ _ Ha c Hc) as Hf.
    rewrite Forall_forall in Hf. now apply Hf.
  - destruct (rec _ _ None None) eqn:Hr; [|discriminate].
    intros H; injection H as <-. apply isEmitted_tuple. eauto.
Qed.

End Emitted.

Lemma decodeFuel_emitted (abiDecode : list ParamType -> bytes -> option (list Value)) :
  forall fuel data paramIdx collectedParams endOfStatic expectedLength isDyn l,
    Forall (fun q => emittedParam q = true) collectedParams ->
    decodeFuel abiDecode fuel data paramIdx collectedParams endOfStatic
               expectedLength isDyn = Some l ->
    Forall (fun t => isEmitted t = true) l.
Proof.
  induction fuel as [|fuel IH]; intros data p c E x i l Hc H; simpl in H;
    [discriminate|].
  apply walk_walked in H. destruct H as (extra & Hw & Hr).
  apply resolveFrame_nth in Hr. destruct Hr as (Hlen & Hnth).
  apply Forall_forall. intros t Hin. apply In_nth_error in Hin.
  destruct Hin as (k & Hk).
  assert (Hq : exists q, nth_error (c ++ extra) k = Some q).
  { destruct (nth_error (c ++ extra) k) as [q|] eqn:Eq; [eauto|].
    apply nth_error_None in Eq.
    assert (nth_error l k <> None) by congruence.
    apply nth_error_Some in H. lia. }
  destruct Hq as (q & Hq). destruct (Hnth k q Hq) as (t' & Ht' & Hres).
  assert (t' = t) by congruence. subst t'.
  unfold maybeResolveDynamicParam in Hres. rewrite Hq in Hres.
  destruct q as [t0 | d].
  - injection Hres as ->.
    destruct (Nat.lt_ge_cases k (List.length c)) as [Hlt | Hge].
    + rewrite nth_error_app1 in Hq by exact Hlt.
      rewrite Forall_forall in Hc.
      apply (Hc (Resolved t)). eapply nth_error_In; eauto.
    + rewrite nth_error_app2 in Hq by exact Hge.
      pose proof (Walked_each _ _ _ _ _ Hw _ _ Hq) as (-> & _). reflexivity.
  - eapply resolvePlaceholder_emitted; [|exact Hres].
    intros d0 e0 x0 i0 r Hr. eapply IH; [constructor | exact Hr].
Qed.

(** X11. Every type that the decoder returns is built from [bytes32] and [bytes]
    with arrays and tuples, when the parameters already collected are. *)
Theorem decodeWellFormedTuple_emitted
    (abiDecode : list ParamType -> bytes -> option (list Value))
    (data : bytes) (paramIdx : Z) (collectedParams : list DecodedParam)
    (endOfStatic : Z) (expectedLength : option Z) (isDyn : option bool)
    (l : list ParamType) :
  Forall (fun q => emittedParam q = true) collectedParams ->
  decodeWellFormedTuple abiDecode data paramIdx collectedParams endOfStatic
                        expectedLength isDyn = Some l ->
  Forall (fun t => isEmitted t = true) l.
Proof. apply decodeFuel_emitted. Qed.

(** X7. The decoder never returns a list of types that the codec refuses for
    the buffer it was given. *)
Theorem decodeWellFormedTuple_accepted
    (abiDecode : list ParamType -> bytes -> option (list Value))
    (data : bytes) (paramIdx : Z) (collectedParams : list DecodedParam)
    (endOfStatic : Z) (expectedLength : option Z) (isDyn : option bool)
    (l : list ParamType) :
  decodeWellFormedTuple abiDecode data paramIdx collectedParams endOfStatic
                        expectedLength isDyn = Some l ->
  abiDecode l data <> None.
Proof. intros H. now apply decodeFuel_some in H. Qed.

(** ** The candidates of an array *)

Lemma staticParse_length (rec : NestedDecoder) (dynamicData : bytes) (w : Z) :
  forall count elemIdx l,
    staticParse rec dynamicData w elemIdx count = Some l ->
    List.length l = count.
Proof.
  induction count as [|count IH]; intros elemIdx l H; simpl in H.
  - now injection H as <-.
  - destruct (rec _ _ None None) as [[|p0 ps]|]; try discriminate.
    destruct (staticParse rec dynamicData w (elemIdx + 1) count) eqn:Hs;
      [|discriminate].
    injection H as <-. simpl. f_equal. eauto.
Qed.

(** X12. Each interpretation of an array of [len] elements that the nested
    decoder produces has exactly [len] element types. *)
Theorem allResults_lengths
    (abiDecode : list ParamType -> bytes -> option (list Value))
    (dynamicData : bytes) (len : Z) (isTrailing : bool)
    (results : list (list ParamType)) :
  0 <= len ->
  allResults (fun d e x i => decodeWellFormedTuple abiDecode d 0 [] e x i)
             dynamicData len isTrailing = Some results ->
  results <> []
  /\ Forall (fun c => Z.of_nat (List.length c) = len) results.
Proof.
  intros Hlen. unfold allResults. destruct (_ && _); [discriminate|].
  destruct (staticParse _ _ _ _ _) as [sp|] eqn:Hs; [|discriminate].
  intros H. injection H as <-. split.
  { intros E. apply app_eq_nil in E. destruct E as (_ & E).
    apply app_eq_nil in E. destruct E as (_ & E). discriminate. }
  apply Forall_app. split; [|apply Forall_app; split].
  - destruct (decodeWellFormedTuple _ _ _ _ _ _ (Some true)) eqn:E; constructor;
      [|constructor].
    apply decodeFuel_some in E. now apply E.
  - destruct (decodeWellFormedTuple _ _ _ _ _ _ (Some false)) eqn:E; constructor;
      [|constructor].
    apply decodeFuel_some in E. now apply E.
  - constructor; [|constructor]. apply staticParse_length in Hs. lia.
Qed.

(** ** The refinement of a word *)

Lemma countTrailingZeros_bounds (arr : bytes) :
  0 <= countTrailingZeros arr <= blen arr.
Proof.
  unfold countTrailingZeros.
  replace (blen arr) with (blen (rev arr)) by (unfold blen; now rewrite length_rev).
  apply countLeadingZeros_bounds.
Qed.

Lemma countTrailingZeros_full (arr : bytes) :
  countTrailingZeros arr = blen arr -> countLeadingZeros arr = blen arr.
Proof.
  unfold countTrailingZeros. intros H.
  replace (blen arr) with (blen (rev arr)) in H
    by (unfold blen; now rewrite length_rev).
  apply countLeadingZeros_full in H. rewrite length_rev in H.
  apply (f_equal (@rev byte)) in H. rewrite rev_involutive, rev_repeat in H.
  now apply countLeadingZeros_full.
Qed.

(** X14. The refinement of a word of 32 bytes is [address], [uint256],
    [bytes32] or [bytesN] with [N] from 1 to 31; the word of 32 zero bytes
    is refined to [uint256]. *)
Theorem prettyBytes32_range (w : bytes) :
  blen w = 32 ->
  (exists s, prettyBytes32 w = Elem s
             /\ (s = "address" \/ s = "uint256" \/ s = "bytes32"
                 \/ exists n, 1 <= n <= 31 /\ s = "bytes" ++ decimal n)%string)
  /\ (w = zeros 32 -> prettyBytes32 w = Elem "uint256"%string).
Proof.
  intros Hlen. split.
  - unfold prettyBytes32.
    pose proof (countTrailingZeros_bounds w) as Hb.
    pose proof (countTrailingZeros_full w) as Hf.
    set (lz := countLeadingZeros w) in *. set (tz := countTrailingZeros w) in *.
    destruct ((lz >=? 12) && (lz <=? 17)) eqn:Ha; [eauto 6|].
    destruct (lz >? 16) eqn:Hu; [eauto 6|].
    destruct (tz >? 0) eqn:Ht; [|eauto 6].
    eexists. split; [reflexivity|]. right. right. right.
    exists (32 - tz). split; [|reflexivity].
    assert (tz <> 32) by (intros E; rewrite Hlen in Hf; specialize (Hf E); lia).
    lia.
  - intros ->. reflexivity.
Qed.

(** ** The shape of a refined list *)

Lemma prettyType_kind (isUtf8 : bytes -> bool) (p : ParamType) (v : option Value)
    (t : ParamType) :
  prettyType isUtf8 p v = Returned t ->
  match p with
  | Elem _ => exists s, t = Elem s
  | ArrayT _ => exists c, t = ArrayT c
  | TupleT cs => exists cs', t = TupleT cs' /\ List.length cs' = List.length cs
  end.
Proof.
  destruct p as [s | c | cs]; simpl.
  - destruct (String.eqb s "bytes32").
    { destruct v as [[w | |]|]; try discriminate.
      intros H. injection H as <-. unfold prettyBytes32.
      repeat match goal with |- context [if ?b then _ else _] => destruct b end; eauto. }
    destruct (String.eqb s "bytes").
    { destruct v as [[w | |]|]; [destruct (isUtf8 w)| | |];
        intros H; injection H as <-; eauto. }
    intros H. injection H as <-. eauto.
  - destruct v as [[| vs |]|]; try discriminate.
    intros H. apply bind_returned in H.
    destruct H as (children & _ & H).
    apply bind_returned in H. destruct H as (merged & _ & H).
    injection H as <-. eauto.
  - destruct v as [[| vs |]|]; try discriminate.
    intros H. apply bind_returned in H.
    destruct H as (refined & Hr & H). injection H as <-.
    apply mapiC_nth in Hr. destruct Hr as (Hlen & _). eauto.
Qed.

(** X15. The refinement keeps the number of parameters and the kind of each
    one: an elementary type stays elementary, an array stays an array and a
    tuple stays a tuple with as many components. *)
Theorem prettyTypes_keeps_shape (isUtf8 : bytes -> bool) (params : list ParamType)
    (vals : list Value) (refined : list ParamType) :
  prettyTypes isUtf8 params vals = Returned refined ->
  Forall2 (fun p t =>
             match p with
             | Elem _ => exists s, t = Elem s
             | ArrayT _ => exists c, t = ArrayT c
             | TupleT cs =>
                 exists cs', t = TupleT cs' /\ List.length cs' = List.length cs
             end) params refined.
Proof.
  unfold prettyTypes, prettyTypesFrom. generalize 0%nat.
  revert refined. induction params as [|p params IH]; intros refined i H.
  - simpl in H. injection H as <-. constructor.
  - apply mapiC_cons in H.
    destruct H as (t & ts & Ht & Hts & ->).
    constructor; [eapply prettyType_kind; eauto | eauto].
Qed.

(** X19. A guess never has more parameters than the input has started words of
    32 bytes, by the length that the first frame is given. *)
Theorem guessAbiEncodedData_parameter_count (isUtf8 : bytes -> bool)
    (abiDecode : list ParamType -> bytes -> option (list Value))
    (input : BytesLike) (T : list ParamType) :
  guessAbiEncodedData isUtf8 abiDecode input = Returned (Some T) ->
  T = [] \/ (Z.of_nat (List.length T) - 1) * 32 < lengthOf input.
Proof.
  unfold guessAbiEncodedData. intros H.
  apply bind_returned in H. destruct H as (data & _ & H).
  destruct (decodeWellFormedTuple _ _ _ _ _ _ _) as [params|] eqn:Hd;
    [|discriminate].
  destruct (abiDecode params data) as [vals|]; [|discriminate].
  apply bind_returned in H. destruct H as (refined & Hr & H).
  injection H as <-.
  apply mapiC_nth in Hr. destruct Hr as (Hlen & _).
  apply decodeFuel_walked in Hd. destruct Hd as (rec & extra & Hw & Hres & _).
  simpl in Hres. apply resolveFrame_nth in Hres. destruct Hres as (Hl & _).
  apply Walked_length in Hw. destruct Hw as [-> | Hw].
  - left. destruct refined; [reflexivity|]. simpl in *. destruct params; discriminate.
  - right. unfold initialEndOfStatic in Hw. rewrite Hlen, Hl. lia.
Qed.

(** ** Merging *)

Lemma mergeFrom_elem (s : string) (rest : list (option ParamType)) :
  mergeFrom (Elem s) rest = mergeLeaf (Elem s) rest.
Proof.
  unfold mergeLeaf. cbn [mergeFrom].
  destruct (findBaseType isTuple (Some (Elem s) :: rest)) as [|[|]]; reflexivity.
Qed.

Lemma mergeFrom_unit (rest : list (option ParamType)) :
  mergeFrom (TupleT []) rest
  = (column <- componentsAt 0 rest ;;
     m <- mergeLeaf (Elem ""%string) column ;;
     Returned (tupleOfUnit m)).
Proof. reflexivity. Qed.

Lemma mergeFrom_tuple (c : ParamType) (cs : list ParamType)
    (rest : list (option ParamType)) :
  mergeFrom (TupleT (c :: cs)) rest
  = (componentTypes <-
       mapiC (fun i c => column <- componentsAt i rest ;; mergeFrom c column)
             (c :: cs) O ;;
     Returned (TupleT componentTypes)).
Proof. reflexivity. Qed.

(** With a tuple among the other types, an array is merged as its element
    type is: the loop runs over the components that the array keeps. *)
Lemma mergeFrom_array_among_tuples (c : ParamType) (rest : list (option ParamType)) :
  findBaseType isTuple rest = Returned true ->
  mergeFrom (ArrayT c) rest = mergeFrom c rest.
Proof.
  intros H. cbn [mergeFrom findBaseType isTuple]. rewrite H. cbn [bind].
  destruct c as [s | c' | cs]; cbn [mergeFrom findBaseType isTuple];
    rewrite ?H; reflexivity.
Qed.

Lemma mergeFrom_array (c : ParamType) (rest : list (option ParamType)) :
  findBaseType isTuple rest = Returned false ->
  mergeFrom (ArrayT c) rest
  = (children <- arrayChildrenOf rest ;;
     merged <- mergeFrom c children ;;
     Returned (ArrayT merged)).
Proof.
  intros H. cbn [mergeFrom findBaseType isTuple isArray]. rewrite H. reflexivity.
Qed.

Lemma findBaseType_repeat (isKind : ParamType -> bool) (t : ParamType) (n : nat) :
  isKind t = false -> findBaseType isKind (repeat (Some t) n) = Returned false.
Proof. intros H. induction n as [|n IH]; simpl; [reflexivity | now rewrite H]. Qed.

Lemma componentsAt_repeat (i : nat) (t : ParamType) (cs : list ParamType) (n : nat) :
  componentsOf t = Some cs ->
  componentsAt i (repeat (Some t) n) = Returned (repeat (nth_error cs i) n).
Proof.
  intros H. induction n as [|n IH]; cbn [repeat componentsAt]; [reflexivity|].
  rewrite H, IH. reflexivity.
Qed.

Lemma arrayChildrenOf_repeat (c : ParamType) (n : nat) :
  arrayChildrenOf (repeat (Some (ArrayT c)) n) = Returned (repeat (Some c) n).
Proof. induction n as [|n IH]; simpl; [reflexivity | now rewrite IH]. Qed.

Lemma formatsOf_repeat (t : ParamType) (n : nat) :
  formatsOf (repeat (Some t) n) = Returned (repeat (format t) n).
Proof. induction n as [|n IH]; simpl; [reflexivity | now rewrite IH]. Qed.

Lemma mapiC_same {A : Type} (f : nat -> A -> Completion A) :
  forall l i,
    (forall k a, nth_error l k = Some a -> f (i + k)%nat a = Returned a) ->
    mapiC f l i = Returned l.
Proof.
  induction l as [|a l IH]; intros i H; simpl; [reflexivity|].
  pose proof (H 0%nat a eq_refl) as Ha. rewrite Nat.add_0_r in Ha. rewrite Ha. simpl.
  rewrite IH; [reflexivity|].
  intros k b Hk. specialize (H (S k) b Hk).
  now replace (S i + k)%nat with (i + S k)%nat by lia.
Qed.

Lemma mergeLeaf_repeat (s : string) (n : nat) :
  mergeLeaf (Elem s) (repeat (Some (Elem s)) n) = Returned (Elem s).
Proof.
  unfold mergeLeaf. cbn [findBaseType isTuple isArray].
  rewrite !findBaseType_repeat by reflexivity. cbn [bind].
  unfold mergeElementary.
  change (Some (Elem s) :: repeat (Some (Elem s)) n)
    with (repeat (Some (Elem s)) (S n)).
  rewrite formatsOf_repeat. cbn [bind].
  assert (H1 : List.length (nodup string_dec (repeat (format (Elem s)) (S n))) = 1%nat).
  { apply nodup_singleton_iff. split; [discriminate|].
    intros a b Ha Hb. apply repeat_spec in Ha, Hb. congruence. }
  rewrite H1. reflexivity.
Qed.

Lemma mergeFrom_repeat (t : ParamType) :
  forall n, mergeFrom t (repeat (Some t) n) = Returned t.
Proof.
  induction t as [s | c IH | cs IH] using ParamType_induction; intros n.
  - rewrite mergeFrom_elem. apply mergeLeaf_repeat.
  - rewrite mergeFrom_array by (now apply findBaseType_repeat).
    rewrite arrayChildrenOf_repeat. cbn [bind]. rewrite IH. reflexivity.
  - destruct cs as [|c cs].
    + rewrite mergeFrom_unit.
      rewrite (componentsAt_repeat 0 (TupleT []) [Elem ""%string]) by reflexivity.
      cbn [bind nth_error]. rewrite mergeLeaf_repeat. reflexivity.
    + rewrite mergeFrom_tuple.
      rewrite mapiC_same; [reflexivity|].
      intros k a Hk. simpl Nat.add.
      rewrite (componentsAt_repeat k (TupleT (c :: cs)) (c :: cs)) by reflexivity.
      rewrite Hk. cbn [bind].
      rewrite Forall_forall in IH. apply IH. eapply nth_error_In; eauto.
Qed.

(** X16. Merging copies of one type gives that type back. *)
Theorem mergeTypes_same (t : ParamType) (n : nat) :
  mergeTypes (repeat t (S n)) = Returned t.
Proof.
  simpl. rewrite map_repeat. apply mergeFrom_repeat.
Qed.

Lemma findBaseType_elems (isKind : ParamType -> bool) (ss : list string) :
  (forall s, isKind (Elem s) = false) ->
  findBaseType isKind (map (fun s => Some (Elem s)) ss) = Returned false.
Proof.
  intros H. induction ss as [|s ss IH]; simpl; [reflexivity|]. now rewrite H.
Qed.

Lemma formatsOf_elem_names (ss : list string) :
  formatsOf (map (fun s => Some (Elem s)) ss) = Returned ss.
Proof. induction ss as [|s ss IH]; simpl; [reflexivity | now rewrite IH]. Qed.

Lemma hasFormat_nodup (s : string) (l : list string) :
  hasFormat s (nodup string_dec l) = existsb (String.eqb s) l.
Proof.
  unfold hasFormat. apply eq_true_iff_eq. rewrite !existsb_exists.
  split; intros (x & Hx & E); exists x; split; auto;
    now apply (nodup_In string_dec).
Qed.

(** The merge of a list of elementary types, by their names. *)
Lemma mergeLeaf_elems (s0 : string) (ss : list string) :
  mergeLeaf (Elem s0) (map (fun s => Some (Elem s)) ss)
  = Returned (Elem (if forallb (String.eqb s0) ss then s0
                    else if existsb (String.eqb "bytes") (s0 :: ss) then "bytes"
                    else if existsb (String.eqb "uint256") (s0 :: ss) then "uint256"
                    else "bytes32")%string).
Proof.
  unfold mergeLeaf. cbn [findBaseType isTuple isArray].
  rewrite !findBaseType_elems by reflexivity. cbn [bind].
  unfold mergeElementary.
  change (Some (Elem s0) :: map (fun x => Some (Elem x)) ss)
    with (map (fun x => Some (Elem x)) (s0 :: ss)).
  rewrite formatsOf_elem_names. cbn [bind].
  rewrite !hasFormat_nodup.
  destruct (forallb (String.eqb s0) ss) eqn:Hall.
  - assert (H1 : List.length (nodup string_dec (s0 :: ss)) = 1%nat).
    { apply nodup_singleton_iff. split; [discriminate|].
      rewrite forallb_forall in Hall.
      assert (Hs : forall a, In a (s0 :: ss) -> a = s0).
      { intros a [<- | Ha]; [reflexivity|].
        symmetry. apply String.eqb_eq. now apply Hall. }
      intros a b Ha Hb. rewrite (Hs a Ha), (Hs b Hb). reflexivity. }
    rewrite H1. reflexivity.
  - destruct (Nat.eqb (List.length (nodup string_dec (s0 :: ss))) 1) eqn:E.
    + exfalso. apply Nat.eqb_eq, nodup_singleton_iff in E. destruct E as (_ & E).
      assert (forallb (String.eqb s0) ss = true); [|congruence].
      apply forallb_forall. intros x Hx. apply String.eqb_eq.
      apply E; [now left | now right].
    + destruct (existsb (String.eqb "bytes") (s0 :: ss)); [reflexivity|].
      destruct (existsb (String.eqb "uint256") (s0 :: ss)); reflexivity.
Qed.

(** X17. The merge of elementary types that are not all the same is [bytes] when
    one of them is [bytes], else [uint256] when one of them is [uint256],
    else [bytes32]; when they are all the same, it is that type. *)
Theorem mergeTypes_elementary (s0 : string) (ss : list string) :
  mergeTypes (map Elem (s0 :: ss))
  = Returned (Elem (if forallb (String.eqb s0) ss then s0
                    else if existsb (String.eqb "bytes") (s0 :: ss) then "bytes"
                    else if existsb (String.eqb "uint256") (s0 :: ss) then "uint256"
                    else "bytes32")%string).
Proof.
  cbn [mergeTypes map]. rewrite map_map, mergeFrom_elem. apply mergeLeaf_elems.
Qed.

Lemma findBaseType_exists (isKind : ParamType -> bool) (types : list ParamType) :
  findBaseType isKind (map Some types) = Returned (existsb isKind types).
Proof.
  induction types as [|t types IH]; simpl; [reflexivity|].
  destruct (isKind t); [reflexivity | exact IH].
Qed.

Lemma mergeFrom_no_components (t0 : ParamType) (rest : list (option ParamType)) :
  componentsOf t0 = None ->
  findBaseType isTuple rest = Returned true ->
  mergeFrom t0 rest = Thrown.
Proof.
  induction t0 as [s | c IH | cs _] using ParamType_induction; intros Hc Hf.
  - rewrite mergeFrom_elem. unfold mergeLeaf. cbn [findBaseType isTuple].
    rewrite Hf. reflexivity.
  - rewrite mergeFrom_array_among_tuples by exact Hf. apply IH; assumption.
  - destruct cs; discriminate.
Qed.

(** X18. When one of the types is a tuple and the first one has no
    components, being neither a tuple nor an array of tuples of any depth,
    the merge raises: the components of the first type, which are [null],
    are read. *)
Theorem mergeTypes_no_components (t0 : ParamType) (rest : list ParamType) :
  componentsOf t0 = None ->
  existsb isTuple rest = true ->
  mergeTypes (t0 :: rest) = Thrown.
Proof.
  intros H0 Hr. cbn [mergeTypes]. apply mergeFrom_no_components; [exact H0|].
  rewrite findBaseType_exists, Hr. reflexivity.
Qed.

(** X21. An array of a tuple merged with that tuple gives the tuple: the
    array keeps the components of its element type, over which the merge
    of a list with a tuple runs, and the array level is lost. *)
Theorem mergeTypes_array_with_its_tuple (t : ParamType) :
  isTuple t = true ->
  mergeTypes [ArrayT t; t] = Returned t.
Proof.
  intros Ht. cbn [mergeTypes map].
  rewrite mergeFrom_array_among_tuples
    by (cbn [findBaseType]; rewrite Ht; reflexivity).
  apply (mergeFrom_repeat t 1).
Qed.

Lemma componentsAt_singletons (ss : list string) :
  componentsAt 0 (map Some (map (fun s => TupleT [Elem s]) ss))
  = Returned (map (fun s => Some (Elem s)) ss).
Proof.
  induction ss as [|s ss IH]; cbn [map componentsAt componentsOf]; [reflexivity|].
  rewrite IH. reflexivity.
Qed.

(** X22. The tuple [()] merged with tuples of one elementary type each
    gives a tuple of one type: the empty type of the one component of [()]
    is merged with the other names, so that the result is [(bytes)] when
    one of them is [bytes], else [(uint256)] when one of them is [uint256],
    else [(bytes32)]. *)
Theorem mergeTypes_unit_first (ss : list string) :
  ss <> [] ->
  ~ In ""%string ss ->
  mergeTypes (TupleT [] :: map (fun s => TupleT [Elem s]) ss)
  = Returned (TupleT [Elem (if existsb (String.eqb "bytes") ss then "bytes"
                            else if existsb (String.eqb "uint256") ss then "uint256"
                            else "bytes32")%string]).
Proof.
  intros Hne Hnot. cbn [mergeTypes]. rewrite mergeFrom_unit, componentsAt_singletons.
  cbn [bind]. rewrite mergeLeaf_elems.
  assert (Hall : forallb (String.eqb "") ss = false).
  { destruct ss as [|s ss]; [contradiction|]. cbn [forallb].
    destruct (String.eqb "" s) eqn:E; [|reflexivity].
    apply String.eqb_eq in E. exfalso. apply Hnot. now left. }
  rewrite Hall. cbn [existsb].
  change (String.eqb "bytes" "") with false.
  change (String.eqb "uint256" "") with false. cbn [orb].
  destruct (existsb (String.eqb "bytes") ss); [reflexivity|].
  destruct (existsb (String.eqb "uint256") ss); reflexivity.
Qed.

(** ** Data without pointers *)

Section StaticOnly.
Variable abiDecode : list ParamType -> bytes -> option (list Value).
Variable rec : NestedDecoder.
Variable data : bytes.

Lemma returnIfValid_accepted (ts : list ParamType) :
  returnIfValid abiDecode data (accepted abiDecode data ts) None = accepted abiDecode data ts.
Proof.
  unfold returnIfValid, testParams, accepted.
  destruct (abiDecode ts data) eqn:E; [now rewrite E | reflexivity].
Qed.

Lemma resolveFrom_resolved (ts : list ParamType) :
  forall todo i rest,
    skipn i ts = rest -> todo = List.length rest ->
    resolveFrom rec data (map Resolved ts) i todo = Some rest.
Proof.
  induction todo as [|todo IH]; intros i rest Hs Hl.
  - destruct rest; [reflexivity | discriminate].
  - destruct rest as [|t rest]; [discriminate|]. simpl.
    assert (Hn : nth_error ts i = Some t).
    { rewrite <- (firstn_skipn i ts) at 1. rewrite Hs.
      assert (Hi : (i <= List.length ts)%nat).
      { destruct (Nat.le_gt_cases i (List.length ts)) as [H | H]; [exact H|].
        rewrite skipn_all2 in Hs by lia. discriminate. }
      rewrite nth_error_app2 by (rewrite length_firstn; lia).
      rewrite length_firstn, Nat.min_l, Nat.sub_diag by lia. reflexivity. }
    unfold maybeResolveDynamicParam. rewrite nth_error_map, Hn. simpl.
    rewrite (IH (S i) rest); [reflexivity| |simpl in Hl; lia].
    replace (S i) with (1 + i)%nat by lia. rewrite <- skipn_skipn, Hs. reflexivity.
Qed.

Lemma resolveFrame_resolved (ts : list ParamType) :
  resolveFrame abiDecode rec data None (map Resolved ts) = accepted abiDecode data ts.
Proof.
  unfold resolveFrame. rewrite length_map.
  rewrite (resolveFrom_resolved ts (List.length ts) 0 ts eq_refl eq_refl).
  unfold returnIfValid, testParams, accepted.
  destruct (abiDecode ts data); reflexivity.
Qed.

Lemma walk_static (endOfStatic : Z) :
  forall m steps paramIdx ts,
    (m <= steps)%nat ->
    32 * (paramIdx + Z.of_nat m - 1) < endOfStatic <= 32 * (paramIdx + Z.of_nat m) ->
    (forall k, (k < m)%nat ->
               tryParseOffset data ((paramIdx + Z.of_nat k) * 32) = None) ->
    walk abiDecode rec data None None steps paramIdx (map Resolved ts) endOfStatic
    = accepted abiDecode data (ts ++ repeat (Elem "bytes32"%string) m).
Proof.
  induction m as [|m IH]; intros steps p ts Hsteps HE Hoff; rewrite walk_eq.
  - replace (p * 32 <? endOfStatic) with false by (symmetry; apply Z.ltb_ge; lia).
    simpl. rewrite app_nil_r. apply resolveFrame_resolved.
  - replace (p * 32 <? endOfStatic) with true by (symmetry; apply Z.ltb_lt; lia).
    destruct steps as [|steps]; [lia|].
    unfold staticRegion.
    pose proof (Hoff 0%nat ltac:(lia)) as H0. rewrite Z.add_0_r in H0. rewrite H0.
    replace (map Resolved ts ++ [Resolved (Elem "bytes32"%string)])
      with (map Resolved (ts ++ [Elem "bytes32"%string]))
      by (rewrite map_app; reflexivity).
    rewrite (IH steps (p + 1) (ts ++ [Elem "bytes32"%string])).
    + rewrite <- app_assoc. simpl. apply returnIfValid_accepted.
    + lia.
    + lia.
    + intros k Hk. specialize (Hoff (S k) ltac:(lia)).
      rewrite Nat2Z.inj_succ in Hoff.
      now replace (p + 1 + Z.of_nat k) with (p + Z.succ (Z.of_nat k)) by lia.
Qed.
End StaticOnly.

(** X13. When none of the [n] words up to the end of the static region parses
    as an offset, the decoder returns [n] times [bytes32], provided the
    codec accepts this list for the buffer, and nothing otherwise. *)
Theorem decodeWellFormedTuple_static_words
    (abiDecode : list ParamType -> bytes -> option (list Value))
    (data : bytes) (n : nat) (endOfStatic : Z) :
  32 * (Z.of_nat n - 1) < endOfStatic <= 32 * Z.of_nat n ->
  (forall k, (k < n)%nat -> tryParseOffset data (Z.of_nat k * 32) = None) ->
  decodeWellFormedTuple abiDecode data 0 [] endOfStatic None None
  = match abiDecode (repeat (Elem "bytes32"%string) n) data with
    | Some _ => Some (repeat (Elem "bytes32"%string) n)
    | None => None
    end.
Proof.
  intros HE Hoff. unfold decodeWellFormedTuple. cbn [decodeFuel].
  change (@nil DecodedParam) with (map Resolved []).
  rewrite (walk_static abiDecode _ data endOfStatic n); [reflexivity| | |].
  - unfold staticSteps. lia.
  - lia.
  - intros k Hk. now apply Hoff.
Qed.

(** ** Hex text *)

Lemma hex_digits_of_byte (b : byte) (rest : string) :
  bytesOfHex (String (hexDigit (byteVal b / 16))
                (String (hexDigit (Z.rem (byteVal b) 16)) rest))
  = match bytesOfHex rest with Some d => Some (b :: d) | None => None end.
Proof.
  cbn [bytesOfHex].
  assert (H : nibble (hexDigit (byteVal b / 16)) = Some (byteVal b / 16)
              /\ nibble (hexDigit (Z.rem (byteVal b) 16)) = Some (Z.rem (byteVal b) 16)
              /\ byteOfZ (byteVal b / 16 * 16 + Z.rem (byteVal b) 16) = b)
    by (destruct b; vm_compute; repeat split; reflexivity).
  destruct H as (-> & -> & ->). reflexivity.
Qed.

Lemma arrayify_hexlify (d : bytes) : arrayify (HexString (hexlify d)) = Returned d.
Proof.
  unfold hexlify. cbn [arrayify String.append].
  assert (H : bytesOfHex (hexOfBytes d) = Some d).
  { induction d as [|b d IH]; [reflexivity|].
    cbn [hexOfBytes]. rewrite hex_digits_of_byte, IH. reflexivity. }
  rewrite H. reflexivity.
Qed.

(** X20. A calldata given as the hex text of its bytes yields the same fragment
    as the calldata given as the array of these bytes. *)
Theorem guessFragment_hex_text (isUtf8 : bytes -> bool)
    (abiDecode : list ParamType -> bytes -> option (list Value)) (d : bytes) :
  guessFragment isUtf8 abiDecode (HexString (hexlify d))
  = guessFragment isUtf8 abiDecode (ByteArray d).
Proof.
  unfold guessFragment. rewrite arrayify_hexlify. reflexivity.
Qed.

(** ** Runs of the properties *)

Lemma offset_then_length_payload_witness :
  32 <= 32 /\ 0 <= 5 /\ 32 + 32 + 5 <= blen Runs.helloData
  /\ blen (slice Runs.helloData (32 + 32) (32 + 32 + 5)) = 5.
Proof.
  apply (offset_then_length_payload Runs.helloData 0 32 5).
  - lia.
  - vm_compute. reflexivity.
  - vm_compute. reflexivity.
Defined.

Lemma chunkString_positive_witness :
  exists chunks,
    chunkString "abcde" 2 = Some chunks
    /\ String.concat "" chunks = "abcde"%string
    /\ Forall (fun c => 1 <= Z.of_nat (String.length c) <= 2) chunks
    /\ Z.of_nat (List.length chunks) = (Z.of_nat (String.length "abcde") + 2 - 1) / 2.
Proof.
  apply (chunkString_positive "abcde" 2). lia.
Defined.

Lemma decodeWellFormedTuple_keeps_collected_witness :
  (List.length [Resolved (Elem "bytes32"%string)]
   <= List.length [Elem "bytes32"%string])%nat
  /\ forall k t,
       nth_error [Resolved (Elem "bytes32"%string)] k = Some (Resolved t) ->
       nth_error [Elem "bytes32"%string] k = Some t.
Proof.
  apply (decodeWellFormedTuple_keeps_collected ReferenceCodec.decode (word1 x2a) 1
           [Resolved (Elem "bytes32"%string)] 32 None None).
  vm_compute. reflexivity.
Defined.

Lemma decodeWellFormedTuple_dynamic_slots_witness :
  let off := bigIntOfBytes (slice Runs.helloData (Z.of_nat 0 * 32)
                                                 (Z.of_nat 0 * 32 + 32)) in
  off mod 32 = 0
  /\ Z.of_nat (List.length [Elem "bytes"%string]) * 32 <= off < blen Runs.helloData.
Proof.
  apply (decodeWellFormedTuple_dynamic_slots ReferenceCodec.decode Runs.helloData
           96 None None [Elem "bytes"%string] 0 (Elem "bytes"%string)).
  - vm_compute. reflexivity.
  - reflexivity.
  - discriminate.
Defined.

Lemma decodeWellFormedTuple_uniform_elements_witness :
  Forall (fun t => t = Elem "bytes"%string \/ isArray t = true)
         [Elem "bytes"%string; Elem "bytes"%string].
Proof.
  apply (decodeWellFormedTuple_uniform_elements ReferenceCodec.decode
           (skipn 64 Runs.stringsData) 0 (blen (skipn 64 Runs.stringsData))
           (Some 2) true).
  vm_compute. reflexivity.
Defined.

Lemma decodeWellFormedTuple_emitted_witness :
  Forall (fun t => isEmitted t = true) [Elem "bytes"%string].
Proof.
  apply (decodeWellFormedTuple_emitted ReferenceCodec.decode Runs.helloData 0 []
           96 None None).
  - constructor.
  - vm_compute. reflexivity.
Defined.

Lemma decodeWellFormedTuple_accepted_witness :
  ReferenceCodec.decode [Elem "bytes"%string] Runs.helloData <> None.
Proof.
  apply (decodeWellFormedTuple_accepted ReferenceCodec.decode Runs.helloData 0 []
           96 None None).
  vm_compute. reflexivity.
Defined.

Lemma allResults_lengths_witness :
  [[Elem "bytes32"; Elem "bytes32"; Elem "bytes32"]]%string <> []
  /\ Forall (fun c => Z.of_nat (List.length c) = 3)
            [[Elem "bytes32"; Elem "bytes32"; Elem "bytes32"]]%string.
Proof.
  apply (allResults_lengths ReferenceCodec.decode (skipn 64 Runs.uintsData) 3 true).
  - lia.
  - vm_compute. reflexivity.
Defined.

Lemma decodeWellFormedTuple_static_words_witness :
  decodeWellFormedTuple ReferenceCodec.decode (word1 x2a) 0 [] 32 None None
  = match ReferenceCodec.decode (repeat (Elem "bytes32"%string) 1) (word1 x2a) with
    | Some _ => Some (repeat (Elem "bytes32"%string) 1)
    | None => None
    end.
Proof.
  apply (decodeWellFormedTuple_static_words ReferenceCodec.decode (word1 x2a) 1 32).
  - simpl. lia.
  - intros k Hk. assert (k = 0%nat) by lia. subst k. vm_compute. reflexivity.
Defined.

Lemma guessAbiEncodedData_parameter_count_witness :
  [Elem "uint256"%string] = []
  \/ (Z.of_nat (List.length [Elem "uint256"%string]) - 1) * 32
     < lengthOf (ByteArray (word1 x2a)).
Proof.
  apply (guessAbiEncodedData_parameter_count ReferenceCodec.isUtf8
           ReferenceCodec.decode (ByteArray (word1 x2a))).
  vm_compute. reflexivity.
Defined.

Lemma prettyBytes32_range_witness :
  (exists s, prettyBytes32 (word1 x2a) = Elem s
             /\ (s = "address" \/ s = "uint256" \/ s = "bytes32"
                 \/ exists n, 1 <= n <= 31 /\ s = "bytes" ++ decimal n)%string)
  /\ (word1 x2a = zeros 32 -> prettyBytes32 (word1 x2a) = Elem "uint256"%string).
Proof.
  apply (prettyBytes32_range (word1 x2a)). reflexivity.
Defined.

Lemma prettyTypes_keeps_shape_witness :
  Forall2 (fun p t =>
             match p with
             | Elem _ => exists s, t = Elem s
             | ArrayT _ => exists c, t = ArrayT c
             | TupleT cs =>
                 exists cs', t = TupleT cs' /\ List.length cs' = List.length cs
             end)
          [ArrayT (ArrayT (TupleT [Elem "bytes32"%string]));
           TupleT [Elem "bytes"; Elem "bytes32"]%string]
          [ArrayT (ArrayT (TupleT [Elem "uint256"%string]));
           TupleT [Elem "string"; Elem "address"]%string].
Proof.
  apply (prettyTypes_keeps_shape ReferenceCodec.isUtf8
           [ArrayT (ArrayT (TupleT [Elem "bytes32"%string]));
            TupleT [Elem "bytes"; Elem "bytes32"]%string]
           [VSeq [VSeq [VSeq [VHex (word1 x2a)]]; VSeq []];
            VSeq [VHex [x68; x69]; VHex (zeros 12 ++ repeat x11 20)]]).
  vm_compute. reflexivity.
Defined.

Lemma mergeTypes_no_components_witness :
  mergeTypes [ArrayT (Elem "bytes32"%string); TupleT [Elem "bytes32"%string]]
  = Thrown.
Proof.
  apply (mergeTypes_no_components (ArrayT (Elem "bytes32"%string))
           [TupleT [Elem "bytes32"%string]]); reflexivity.
Defined.

Lemma mergeTypes_array_with_its_tuple_witness :
  mergeTypes [ArrayT (TupleT [Elem "bytes"; Elem "uint256"]%string);
              TupleT [Elem "bytes"; Elem "uint256"]%string]
  = Returned (TupleT [Elem "bytes"; Elem "uint256"]%string).
Proof.
  apply (mergeTypes_array_with_its_tuple
           (TupleT [Elem "bytes"; Elem "uint256"]%string)).
  reflexivity.
Defined.

Lemma mergeTypes_unit_first_witness :
  mergeTypes (TupleT [] :: map (fun s => TupleT [Elem s]) ["address"; "string"]%string)
  = Returned (TupleT [Elem "bytes32"%string]).
Proof.
  apply (mergeTypes_unit_first ["address"; "string"]%string).
  - discriminate.
  - intros [H | [H | []]]; discriminate.
Defined.

Lemma decodeWellFormedTuple_unfold_witness :
  decodeWellFormedTuple ReferenceCodec.decode Runs.helloData 0 [] 96 None None
  = if 0 * 32 <? 96 then
      staticRegion ReferenceCodec.decode Runs.helloData None (0 * 32) 96
        (fun p e =>
           decodeWellFormedTuple ReferenceCodec.decode Runs.helloData (0 + 1)
                                 ([] ++ [p]) e None None)
    else
      resolveFrame ReferenceCodec.decode
        (fun d e x i => decodeWellFormedTuple ReferenceCodec.decode d 0 [] e x i)
        Runs.helloData None [].
Proof.
  apply (decodeWellFormedTuple_unfold ReferenceCodec.decode Runs.helloData 0 []
           96 None None).
  split; [lia | constructor].
Defined.
